(** * Webhook dispatch and iMessage poll coordination

    A shallow embedding of
    [packages/server/src/server/services/webhookService/index.ts]
    ([WebhookService]) and of the [IMessageListener] class that drives the
    pollers, together with the properties of the window arithmetic, of the
    subscription cache, of the fan-out and of the failure handling.

    Conventions.
    - Timestamps are the millisecond counts of [Date.now()]; they are
      integers far below 2^53, so JavaScript number arithmetic on them is
      exact and they are modelled in [Z].
    - An [async] method is a computation in the monad [M]: it threads the
      fields of [this], appends the calls it makes on its collaborators to a
      trace, and ends by returning, by throwing (a rejected promise), or by
      never resuming from an [await].
    - Collaborators that the class only calls (the repository, [JSON.parse],
      axios, the pollers, the emitter listeners, the message cache) are
      given by an environment record, one per call, so that every theorem
      quantifies over all their behaviours. *)

From Stdlib Require Import ZArith List String Bool Lia Arith DecimalString.
Import ListNotations.

Local Open Scope string_scope.
Local Open Scope list_scope.
Local Open Scope Z_scope.

(** ** JavaScript values that the code inspects *)

(** A thrown value, seen through the three expressions the handlers apply
    to it: [ex?.message], [String(ex)] and [ex?.response?.statusText]. *)
Record JsError : Type := mkJsError {
  message : option string;
  asString : string;
  statusText : option string
}.

(** [`${x}`] for an [x] that is a string or [undefined]. *)
Definition template (x : option string) : string :=
  match x with
  | Some s => s
  | None => "undefined"
  end.

(** [ex?.message ?? String(ex)] *)
Definition errorText (ex : JsError) : string :=
  match message ex with
  | Some m => m
  | None => asString ex
  end.

(** [s] between two double quote characters. *)
Definition quoted (s : string) : string :=
  String (Ascii.ascii_of_nat 34)
         (String.append s (String (Ascii.ascii_of_nat 34) EmptyString)).

(** What [JSON.parse] can return. Numbers are kept as their text. *)
#[warnings="-register-all"] Inductive Json : Type :=
| JNull
| JBool (b : bool)
| JNumber (text : string)
| JString (s : string)
| JArray (items : list Json)
| JObject (members : list (string * Json)).

(** [s.includes(x)] on strings: [x] occurs in [s]. *)
Fixpoint contains (s x : string) : bool :=
  String.prefix x s ||
  match s with
  | EmptyString => false
  | String _ rest => contains rest x
  end.

(** The [TypeError]s of a call [v.includes(...)] on a value that has no
    such method (messages as V8 words them). *)
Definition nullHasNoProperties : JsError :=
  {| message := Some "Cannot read properties of null (reading 'includes')";
     asString :=
       "TypeError: Cannot read properties of null (reading 'includes')";
     statusText := None |}.

Definition includesIsNotAFunction : JsError :=
  {| message := Some "eventTypes.includes is not a function";
     asString := "TypeError: eventTypes.includes is not a function";
     statusText := None |}.

(** [data: any]: the payload is opaque to this code; it is carried as its
    JSON text. *)
Definition any : Type := string.

(** ** Computations *)

Module Run.

Inductive Outcome (A : Type) : Type :=
| Returned (a : A)
| Threw (e : JsError)
| Blocked.

Arguments Returned {A} a.
Arguments Threw {A} e.
Arguments Blocked {A}.

Section Monad.
Variables (St Ev : Type).

Definition M (A : Type) : Type := St -> Outcome A * St * list Ev.

Definition ret {A} (a : A) : M A := fun s => (Returned a, s, []).

Definition bind {A B} (m : M A) (k : A -> M B) : M B :=
  fun s =>
    match m s with
    | (Returned a, s1, t1) =>
        match k a s1 with
        | (o, s2, t2) => (o, s2, t1 ++ t2)
        end
    | (Threw e, s1, t1) => (Threw e, s1, t1)
    | (Blocked, s1, t1) => (Blocked, s1, t1)
    end.

Definition throw {A} (e : JsError) : M A := fun s => (Threw e, s, []).

(** An [await] on a promise that is never settled. *)
Definition block {A} : M A := fun s => (Blocked, s, []).

Definition tell (t : list Ev) : M unit := fun s => (Returned tt, s, t).

Definition get : M St := fun s => (Returned s, s, []).

Definition put (s' : St) : M unit := fun _ => (Returned tt, s', []).

(** [try { m } catch (error) { h error }] *)
Definition tryCatch {A} (m : M A) (h : JsError -> M A) : M A :=
  fun s =>
    match m s with
    | (Threw e, s1, t1) =>
        match h e s1 with
        | (o, s2, t2) => (o, s2, t1 ++ t2)
        end
    | r => r
    end.

(** [try { m } finally { f }]: [f] runs when [m] returns or throws; an
    abrupt end of [f] replaces the outcome of [m]. *)
Definition tryFinally {A} (m : M A) (f : M unit) : M A :=
  fun s =>
    match m s with
    | (Blocked, s1, t1) => (Blocked, s1, t1)
    | (o, s1, t1) =>
        match f s1 with
        | (Returned _, s2, t2) => (o, s2, t1 ++ t2)
        | (Threw e, s2, t2) => (Threw e, s2, t1 ++ t2)
        | (Blocked, s2, t2) => (Blocked, s2, t1 ++ t2)
        end
    end.

(** [for (const x of xs) { body x }] *)
Fixpoint forOf {A} (xs : list A) (body : A -> M unit) : M unit :=
  match xs with
  | [] => ret tt
  | x :: rest => bind (body x) (fun _ => forOf rest body)
  end.

(** [xs.map(f)] for a callback that may throw. *)
Fixpoint mapM {A B} (f : A -> M B) (xs : list A) : M (list B) :=
  match xs with
  | [] => ret []
  | x :: rest =>
      bind (f x) (fun y => bind (mapM f rest) (fun ys => ret (y :: ys)))
  end.

(** [xs.filter(f)] for a callback that may throw. *)
Fixpoint filterM {A} (f : A -> M bool) (xs : list A) : M (list A) :=
  match xs with
  | [] => ret []
  | x :: rest =>
      bind (f x) (fun keep =>
        bind (filterM f rest) (fun ys =>
          ret (if keep then x :: ys else ys)))
  end.

Definition outcome {A} (r : Outcome A * St * list Ev) : Outcome A :=
  fst (fst r).
Definition final {A} (r : Outcome A * St * list Ev) : St :=
  snd (fst r).
Definition trace {A} (r : Outcome A * St * list Ev) : list Ev :=
  snd r.

End Monad.

Arguments ret {St Ev A} a.
Arguments bind {St Ev A B} m k.
Arguments throw {St Ev A} e.
Arguments block {St Ev A}.
Arguments tell {St Ev} t.
Arguments get {St Ev}.
Arguments put {St Ev} s'.
Arguments tryCatch {St Ev A} m h.
Arguments tryFinally {St Ev A} m f.
Arguments forOf {St Ev A} xs body.
Arguments mapM {St Ev A B} f xs.
Arguments filterM {St Ev A} f xs.
Arguments outcome {St Ev A} r.
Arguments final {St Ev A} r.
Arguments trace {St Ev A} r.

Declare Scope run_scope.
Delimit Scope run_scope with run.

Notation "x <- m ;; k" := (bind m (fun x => k))
  (at level 61, m at next level, right associativity) : run_scope.
Notation "m ;; k" := (bind m (fun _ => k))
  (at level 61, right associativity) : run_scope.

End Run.

Import Run.
Local Open Scope run_scope.

(** ** [WebhookService] *)

Module WebhookService.

(** The two columns of the [Webhook] entity that the service reads. *)
Record Webhook : Type := mkWebhook {
  url : string;
  events : string
}.

Record WebhookEvent : Type := mkWebhookEvent {
  type : string;
  data : any
}.

(** [eventTypes] is declared [string[]], but it holds whatever
    [JSON.parse] returned: the cast is not checked. *)
Record CachedWebhook : Type := mkCachedWebhook {
  webhook : Webhook;
  eventTypes : Json
}.

(** The private fields of the service. *)
Record State : Type := mkState {
  webhookCache : option (list CachedWebhook);
  cacheExpiry : Z
}.

Definition CACHE_TTL_MS : Z := 30000.

(** Field initialisers of the class. *)
Definition initial : State :=
  {| webhookCache := None; cacheExpiry := 0 |}.

(** Calls on collaborators, in the order the service makes them. *)
Inductive Effect : Type :=
| GetWebhooks
| JsonParse (text : string)
| AxiosPost (target : string) (event : WebhookEvent)
| LogDebug (msg : string).

(** What the collaborators answer during one call of a method:
    [Date.now()], [Server().repo.getWebhooks()], [JSON.parse] (a value or
    a [SyntaxError]) and [axios.post], whose promise is fulfilled ([None])
    or rejected with a value. *)
Record Env : Type := mkEnv {
  now : Z;
  getWebhooks : JsError + list Webhook;
  JSON_parse : string -> JsError + Json;
  axios_post : string -> WebhookEvent -> option JsError
}.

Definition M := Run.M State Effect.

(** [await x] for a call that resolves or rejects. *)
Definition await {A} (call : Effect) (answer : JsError + A) : M A :=
  tell [call] ;;
  match answer with
  | inl e => throw e
  | inr a => ret a
  end.

Definition invalidateCache : M unit :=
  put {| webhookCache := None; cacheExpiry := 0 |}.

(** [this.webhookCache && now < this.cacheExpiry]; an array, even an empty
    one, is truthy. *)
Definition cacheHit (this : State) (now : Z) : option (list CachedWebhook) :=
  match webhookCache this with
  | Some cached => if now <? cacheExpiry this then Some cached else None
  | None => None
  end.

Definition getWebhooksWithCache (env : Env) : M (list CachedWebhook) :=
  this <- get ;;
  let now := now env in
  match cacheHit this now with
  | Some cached => ret cached
  | None =>
      webhooks <- await GetWebhooks (getWebhooks env) ;;
      parsed <- mapM (fun webhook =>
                  eventTypes <- await (JsonParse (events webhook))
                                  (JSON_parse env (events webhook)) ;;
                  ret {| webhook := webhook; eventTypes := eventTypes |})
                webhooks ;;
      put {| webhookCache := Some parsed;
             cacheExpiry := now + CACHE_TTL_MS |} ;;
      ret parsed
  end.

(** An element of an array that is the string [x]. *)
Definition isString (x : string) (v : Json) : bool :=
  match v with
  | JString s => String.eqb x s
  | _ => false
  end.

(** [eventTypes.includes(x)] for a string [x]: on an array the search for
    an element equal to [x], on a string the search for [x] inside it; any
    other value has no method [includes], and the call throws. *)
Definition includes (eventTypes : Json) (x : string) : JsError + bool :=
  match eventTypes with
  | JArray items => inr (existsb (isString x) items)
  | JString s => inr (contains s x)
  | JNull => inl nullHasNoProperties
  | _ => inl includesIsNotAFunction
  end.

(** The callback of the [filter] in [dispatch]:
    [eventTypes.includes("*") || eventTypes.includes(event.type)]. *)
Definition applicable (event : WebhookEvent) (c : CachedWebhook)
  : JsError + bool :=
  match includes (eventTypes c) "*" with
  | inl e => inl e
  | inr true => inr true
  | inr false => includes (eventTypes c) (type event)
  end.

(** A promise, by the state in which it settles. *)
Inductive Promise : Type :=
| Fulfilled
| Rejected (ex : JsError).

(** One element of [dispatchPromises]: the subscription it serves, how the
    request itself settles, how the promise chained with [.catch] settles,
    and what the [.catch] handler logs when it runs. *)
Record Delivery : Type := mkDelivery {
  recipient : Webhook;
  request : Promise;
  chained : Promise;
  reaction : list Effect
}.

Definition sendPost (env : Env) (url : string) (event : WebhookEvent)
  : M Promise :=
  tell [AxiosPost url event] ;;
  ret (match axios_post env url event with
       | None => Fulfilled
       | Some ex => Rejected ex
       end).

(** The handler passed to [.catch] in [dispatch]. *)
Definition onRejected (event : WebhookEvent) (webhook : Webhook)
           (ex : JsError) : list Effect :=
  [ LogDebug (String.append "Failed to dispatch "
               (String.append (quoted (type event))
                 (String.append " event to webhook: " (url webhook))));
    LogDebug (String.append "  -> Error: " (errorText ex));
    LogDebug (String.append "  -> Status Text: " (template (statusText ex))) ].

(** [p.catch(handler)] for a handler that returns normally. *)
Definition catch (p : Promise) (handler : JsError -> list Effect)
  : Promise * list Effect :=
  match p with
  | Fulfilled => (Fulfilled, [])
  | Rejected ex => (Fulfilled, handler ex)
  end.

(** [Promise.all(ps)] rejects as soon as one of [ps] does. *)
Fixpoint Promise_all (ps : list Promise) : Promise :=
  match ps with
  | [] => Fulfilled
  | Fulfilled :: rest => Promise_all rest
  | Rejected ex :: _ => Rejected ex
  end.

(** [dispatch] resolves to [undefined]; the value computed here is the
    array [dispatchPromises] that the method leaves to settle on its own
    (empty when the method returns early). The trace holds what happens
    before the method returns; the [reaction] of each delivery happens
    later, when its request settles. *)
Definition dispatch (env : Env) (event : WebhookEvent) : M (list Delivery) :=
  cachedWebhooks <- getWebhooksWithCache env ;;
  applicableWebhooks <-
    filterM (fun c => match applicable event c with
                      | inl e => throw e
                      | inr keep => ret keep
                      end)
            cachedWebhooks ;;
  if (List.length applicableWebhooks =? 0)%nat then ret []
  else
    mapM (fun c =>
            let webhook := webhook c in
            tell [LogDebug (String.append "Dispatching event to webhook: "
                                          (url webhook))] ;;
            p <- sendPost env (url webhook) event ;;
            let (q, logs) := catch p (onRejected event webhook) in
            ret {| recipient := webhook; request := p;
                   chained := q; reaction := logs |})
         applicableWebhooks.

(** [Promise.all(dispatchPromises).catch(() => {})] *)
Definition detached (dispatchPromises : list Delivery) : Promise :=
  fst (catch (Promise_all (map chained dispatchPromises)) (fun _ => [])).

(** Readings of a trace. *)
Definition storeReads (t : list Effect) : nat :=
  List.length (filter (fun e => match e with GetWebhooks => true | _ => false end) t).

Fixpoint parses (t : list Effect) : list string :=
  match t with
  | [] => []
  | JsonParse text :: rest => text :: parses rest
  | _ :: rest => parses rest
  end.

Fixpoint posts (t : list Effect) : list (string * WebhookEvent) :=
  match t with
  | [] => []
  | AxiosPost target event :: rest => (target, event) :: posts rest
  | _ :: rest => posts rest
  end.

(** The parse step of a cache fill as a function: the parsed registrations,
    or the first error. *)
Fixpoint parseAll (parse : string -> JsError + Json)
         (webhooks : list Webhook) : JsError + list CachedWebhook :=
  match webhooks with
  | [] => inr []
  | webhook :: rest =>
      match parse (events webhook) with
      | inl e => inl e
      | inr eventTypes =>
          match parseAll parse rest with
          | inl e => inl e
          | inr parsed =>
              inr ({| webhook := webhook; eventTypes := eventTypes |} :: parsed)
          end
      end
  end.

(** The registrations that a cache fill hands to [JSON.parse]: all of them,
    up to the first one whose filter list does not parse. *)
Fixpoint attempted (parse : string -> JsError + Json)
         (webhooks : list Webhook) : list Webhook :=
  match webhooks with
  | [] => []
  | webhook :: rest =>
      match parse (events webhook) with
      | inl _ => [webhook]
      | inr _ => webhook :: attempted parse rest
      end
  end.

(** The [filter] of [dispatch] as a function: the subscriptions kept, in
    the order of the cache, or the error of the first callback that
    throws. *)
Fixpoint matching (event : WebhookEvent) (cached : list CachedWebhook)
  : JsError + list CachedWebhook :=
  match cached with
  | [] => inr []
  | c :: rest =>
      match applicable event c with
      | inl e => inl e
      | inr keep =>
          match matching event rest with
          | inl e => inl e
          | inr kept => inr (if keep then c :: kept else kept)
          end
      end
  end.

(** In the words of the specification: the filter list of [c] is a list,
    and it contains [x]. *)
Definition listed (x : string) (c : CachedWebhook) : bool :=
  match eventTypes c with
  | JArray items => existsb (isString x) items
  | _ => false
  end.

Definition hasFilterList (c : CachedWebhook) : Prop :=
  exists items, eventTypes c = JArray items.

(** The error of calling [includes] on a value, if it has no such
    method. *)
Definition noIncludes (v : Json) : option JsError :=
  match v with
  | JArray _ | JString _ => None
  | JNull => Some nullHasNoProperties
  | _ => Some includesIsNotAFunction
  end.

(** The element of [dispatchPromises] for one applicable subscription. *)
Definition delivery (env : Env) (event : WebhookEvent) (c : CachedWebhook)
  : Delivery :=
  let p := match axios_post env (url (webhook c)) event with
           | None => Fulfilled
           | Some ex => Rejected ex
           end in
  {| recipient := webhook c;
     request := p;
     chained := fst (catch p (onRejected event (webhook c)));
     reaction := snd (catch p (onRejected event (webhook c))) |}.

(** What [dispatch] does before it returns, for one applicable
    subscription. *)
Definition initiation (event : WebhookEvent) (c : CachedWebhook)
  : list Effect :=
  [ LogDebug (String.append "Dispatching event to webhook: "
                            (url (webhook c)));
    AxiosPost (url (webhook c)) event ].

(** The array [dispatchPromises] of a finished call, empty when the call
    threw. *)
Definition deliveries (r : Outcome (list Delivery) * State * list Effect)
  : list Delivery :=
  match outcome r with
  | Returned ds => ds
  | _ => []
  end.

(** The same collaborators with another behaviour of [axios.post]. *)
Definition withPost (env : Env)
           (post : string -> WebhookEvent -> option JsError) : Env :=
  {| now := now env; getWebhooks := getWebhooks env;
     JSON_parse := JSON_parse env; axios_post := post |}.

End WebhookService.

(** ** [IMessageListener] *)

Module IMessageListener.

(** Modelled from the spec: [FileChangeEvent] is declared in
    [@server/lib/MultiFileWatcher], which is not among the sources; a
    change notification carries the set of paths that changed. The
    handler never reads it. *)
Definition FileChangeEvent : Type := list string.

(** What a poller yields: the handler reads [eventType] and [data]. *)
Record PollResult : Type := mkPollResult {
  eventType : string;
  data : any
}.

(** The fields of the listener that the poll cycle reads or writes;
    [processLock] is the number of free tokens of the [Sema]. *)
Record State : Type := mkState {
  stopped : bool;
  processLock : nat;
  lastCheck : Z
}.

(** The constructor: [new Sema(1)], [lastCheck = 0]. *)
Definition initial : State :=
  {| stopped := false; processLock := 1; lastCheck := 0 |}.

Inductive Effect : Type :=
| Acquire
| Release
| Poll (index : nat) (after : Z)
| Emit (result : PollResult)
| WaitMs (ms : Z)
| TrimCaches
| LogDebug (msg : string)
| LogError (msg : string).

(** The collaborators during one cycle: [Date.now()], the registered
    pollers in registration order (each returns results or throws), the
    listeners behind [this.emit] (which may throw), [cache.trimCaches()]
    and [processLock.nrWaiting()]. *)
Record Env : Type := mkEnv {
  now : Z;
  pollers : list (Z -> JsError + list PollResult);
  emit : PollResult -> option JsError;
  trimCaches : option JsError;
  nrWaiting : nat
}.

Definition M := Run.M State Effect.

(** [`${n}`] for an integer. *)
Definition showNumber (n : Z) : string :=
  DecimalString.NilZero.string_of_int (Z.to_int n).

(** A call that returns or throws. *)
Definition call {A} (what : Effect) (answer : JsError + A) : M A :=
  tell [what] ;;
  match answer with
  | inl e => throw e
  | inr a => ret a
  end.

(** A call without a result that returns or throws. *)
Definition perform (what : Effect) (answer : option JsError) : M unit :=
  tell [what] ;;
  match answer with
  | Some e => throw e
  | None => ret tt
  end.

(** [await this.processLock.acquire()]: with no free token the caller
    waits for a release by somebody else. *)
Definition acquire : M unit :=
  this <- get ;;
  match processLock this with
  | O => block
  | S n =>
      put {| stopped := stopped this; processLock := n;
             lastCheck := lastCheck this |} ;;
      tell [Acquire]
  end.

Definition release : M unit :=
  this <- get ;;
  put {| stopped := stopped this; processLock := S (processLock this);
         lastCheck := lastCheck this |} ;;
  tell [Release].

Definition setLastCheck (value : Z) : M unit :=
  this <- get ;;
  put {| stopped := stopped this; processLock := processLock this;
         lastCheck := value |}.

(** The pollers with their position in [this.pollers]. *)
Definition numbered {A} (from : nat) (xs : list A) : list (nat * A) :=
  combine (seq from (List.length xs)) xs.

Definition poll (env : Env) (after : Z) (emitResults : bool) : M unit :=
  forOf (numbered 0 (pollers env)) (fun '(index, poller) =>
    results <- call (Poll index after) (poller after) ;;
    if emitResults then
      forOf results (fun result =>
        perform (Emit result) (emit env result) ;;
        tell [WaitMs 10])
    else ret tt).

(** The inner loop of [poll], under a name for the lemmas about it. *)
Definition emitLoop (env : Env) (results : list PollResult) : M unit :=
  forOf results (fun result =>
    perform (Emit result) (emit env result) ;;
    tell [WaitMs 10]).

(** The loop of [poll] over the pollers from position [from] on, under a
    name for the inductions. *)
Definition pollFrom (env : Env) (after : Z) (emitResults : bool) (from : nat)
           (ps : list (Z -> JsError + list PollResult)) : M unit :=
  forOf (numbered from ps) (fun '(index, poller) =>
    results <- call (Poll index after) (poller after) ;;
    if emitResults then emitLoop env results else ret tt).

Definition handleFallbackPoll (env : Env) : M unit :=
  acquire ;;
  tryFinally
    (tryCatch
       (let now := now env in
        this <- get ;;
        let afterTime := lastCheck this - 30000 in
        let afterTime :=
          if (afterTime >? now) || (afterTime <=? 0)
          then now - 60000
          else afterTime in
        poll env afterTime true ;;
        setLastCheck now ;;
        perform TrimCaches (trimCaches env))
       (fun error =>
          tell [LogError (String.append "Error in fallback poll: "
                                        (asString error))]))
    release.

(** The body of [handleChangeEvent], under the debounce decorator. *)
Definition handleChangeEvent (env : Env) (event : FileChangeEvent) : M unit :=
  acquire ;;
  tryFinally
    (tryCatch
       (let now := now env in
        this <- get ;;
        let prevTime := lastCheck this in
        prevTime <-
          (if (prevTime <=? 0) || (prevTime >? now) then
             tell [LogDebug (String.append "Previous time is invalid ("
                              (String.append (showNumber prevTime)
                                             "), setting to now..."))] ;;
             ret now
           else if now - prevTime >? 86400000 then
             tell [LogDebug
               "Previous time is > 24 hours ago, setting to 24 hours ago..."] ;;
             ret (now - 86400000)
           else ret prevTime) ;;
        let afterTime := prevTime - 30000 in
        let afterTime := if afterTime >? now then now else afterTime in
        poll env afterTime true ;;
        setLastCheck now ;;
        perform TrimCaches (trimCaches env) ;;
        if (0 <? nrWaiting env)%nat then tell [WaitMs 100] else ret tt)
       (fun error =>
          tell [LogError (String.append "Error handling change event: "
                                        (asString error))]))
    release.

(** The two ways into a poll cycle. *)
Inductive Trigger : Type :=
| Debounced (event : FileChangeEvent)
| Fallback.

Definition cycle (trigger : Trigger) (env : Env) : M unit :=
  match trigger with
  | Debounced event => handleChangeEvent env event
  | Fallback => handleFallbackPoll env
  end.

(** Cycles one after the other, as the lock serialises them; the result
    is the final listener and the outcome and trace of every cycle. *)
Fixpoint cycles (todo : list (Trigger * Env)) (this : State)
  : State * list (Outcome unit * list Effect) :=
  match todo with
  | [] => (this, [])
  | (trigger, env) :: rest =>
      match cycle trigger env this with
      | (o, this', t) =>
          let (final, log) := cycles rest this' in
          (final, (o, t) :: log)
      end
  end.

(** Readings of a trace. *)
Fixpoint polled (t : list Effect) : list (nat * Z) :=
  match t with
  | [] => []
  | Poll index after :: rest => (index, after) :: polled rest
  | _ :: rest => polled rest
  end.

Definition isTrim (e : Effect) : bool :=
  match e with TrimCaches => true | _ => false end.

Definition isLogError (e : Effect) : bool :=
  match e with LogError _ => true | _ => false end.

(** A poller that answers, and whose results the listeners accept. *)
Definition answers (env : Env) (after : Z)
           (poller : Z -> JsError + list PollResult) : Prop :=
  exists results,
    poller after = inr results /\
    Forall (fun r => emit env r = None) results.

(** The window rules in the words of the specification (section 4.1),
    to be compared with what the handlers pass to [poll]. *)
Definition specFallbackLowerBound (lastCheck now : Z) : Z :=
  let lowerBound := lastCheck - 30000 in
  if (lowerBound >? now) || (lowerBound <=? 0) then now - 60000
  else lowerBound.

Definition specDebouncedLowerBound (lastCheck now : Z) : Z :=
  let prev := lastCheck in
  let prev :=
    if (prev <=? 0) || (prev >? now) then now
    else if now - prev >? 86400000 then now - 86400000
    else prev in
  let lowerBound := prev - 30000 in
  if lowerBound >? now then now else lowerBound.

(** The listener with another value in one field. *)
Definition withLock (this : State) (tokens : nat) : State :=
  {| stopped := stopped this; processLock := tokens;
     lastCheck := lastCheck this |}.

Definition withLastCheck (this : State) (value : Z) : State :=
  {| stopped := stopped this; processLock := processLock this;
     lastCheck := value |}.

(** What [handleChangeEvent] logs while it settles [prevTime]. *)
Definition prevTimeLog (lastCheck now : Z) : list Effect :=
  if (lastCheck <=? 0) || (lastCheck >? now) then
    [LogDebug (String.append "Previous time is invalid ("
                (String.append (showNumber lastCheck)
                               "), setting to now..."))]
  else if now - lastCheck >? 86400000 then
    [LogDebug "Previous time is > 24 hours ago, setting to 24 hours ago..."]
  else [].

(** What follows the calls of the pollers in a cycle, by the outcome of
    [poll]: the message of the [catch] clause is [caught]; after a
    successful [trimCaches] the debounced handler may pause. *)
Definition afterPoll (caught : string) (pause : list Effect) (env : Env)
           (polling : Outcome unit) : list Effect :=
  match polling with
  | Returned _ =>
      TrimCaches ::
      match trimCaches env with
      | Some e => [LogError (String.append caught (asString e)); Release]
      | None => pause ++ [Release]
      end
  | Threw e => [LogError (String.append caught (asString e)); Release]
  | Blocked => []
  end.

Definition afterCycle (this : State) (env : Env) (polling : Outcome unit)
  : State :=
  match polling with
  | Returned _ => withLastCheck this (now env)
  | _ => this
  end.

(** The lower bound of the window, by the way into the cycle. *)
Definition lowerBound (trigger : Trigger) (lastCheck now : Z) : Z :=
  match trigger with
  | Debounced _ => specDebouncedLowerBound lastCheck now
  | Fallback => specFallbackLowerBound lastCheck now
  end.

(** The message of the [catch] clause of each handler. *)
Definition caught (trigger : Trigger) (e : JsError) : string :=
  match trigger with
  | Debounced _ => String.append "Error handling change event: " (asString e)
  | Fallback => String.append "Error in fallback poll: " (asString e)
  end.

(** The trace [t] shows the pollers of [env] called in registration order,
    from the first one on (and at least that one, when there is any), each
    with the lower bound [bound]. *)
Definition passesToPollers (env : Env) (t : list Effect) (bound : Z) : Prop :=
  exists m : nat,
    (m <= List.length (pollers env))%nat /\
    (pollers env <> [] -> (0 < m)%nat) /\
    polled t = map (fun i => (i, bound)) (seq 0 m).

End IMessageListener.

(** ** The debounce decorator *)

Module Debounce.

Import IMessageListener.

(** The wait given to the decorator on [handleChangeEvent]. *)
Definition WAIT : Z := 500.

(** Modelled from the spec: the decorator [DebounceSubsequentWithWait]
    lives in [@server/lib/decorators/DebounceDecorator], which is not
    among the sources. By the spec it keeps one timer for its key; each
    incoming notification (re)schedules the fixed wait, cancelling the
    pending timer rather than adding a second one, and the wrapped method
    runs, with the arguments of the last notification, when the wait
    elapses with no further notification.

    [pending] is the armed timer: its due time and the arguments it will
    pass on. [notify] is one notification at time [at]; besides the new
    timer it yields the invocation of a timer that came due before. *)
Definition Pending : Type := option (Z * FileChangeEvent).

Definition notify (wait : Z) (at_ : Z) (event : FileChangeEvent)
           (pending : Pending) : Pending * list (Z * FileChangeEvent) :=
  match pending with
  | Some (due, previous) =>
      if due <=? at_
      then (Some (at_ + wait, event), [(due, previous)])
      else (Some (at_ + wait, event), [])
  | None => (Some (at_ + wait, event), [])
  end.

(** Modelled from the spec: no further notification arrives, so the
    pending timer, if any, elapses. *)
Definition elapse (pending : Pending) : list (Z * FileChangeEvent) :=
  match pending with
  | Some invocation => [invocation]
  | None => []
  end.

(** Modelled from the spec: the invocations of the wrapped method, with
    their times, for notifications arriving at the given times. *)
Fixpoint invocations (wait : Z) (arrivals : list (Z * FileChangeEvent))
         (pending : Pending) : list (Z * FileChangeEvent) :=
  match arrivals with
  | [] => elapse pending
  | (at_, event) :: rest =>
      let (pending', fired) := notify wait at_ event pending in
      fired ++ invocations wait rest pending'
  end.

(** The poll cycles that the notifications cause on the debounced path. *)
Definition debouncedCycles (arrivals : list (Z * FileChangeEvent))
  : list Trigger :=
  map (fun invocation => Debounced (snd invocation))
      (invocations WAIT arrivals None).

(** A burst: the notifications come in order of time, each less than
    [wait] after the one before. *)
Fixpoint burst (wait : Z) (first : Z) (later : list (Z * FileChangeEvent))
  : Prop :=
  match later with
  | [] => True
  | (at_, _) :: rest => first <= at_ < first + wait /\ burst wait at_ rest
  end.

End Debounce.

(** ** Further readings of a cycle *)

Module CycleReadings.

Import IMessageListener.

(** The results handed to [this.emit], in order. *)
Fixpoint emitted (t : list Effect) : list PollResult :=
  match t with
  | [] => []
  | Emit result :: rest => result :: emitted rest
  | _ :: rest => emitted rest
  end.

Definition isWait (ms : Z) (e : Effect) : bool :=
  match e with
  | WaitMs n => n =? ms
  | _ => false
  end.

Definition isLock (e : Effect) : bool :=
  match e with
  | Acquire | Release => true
  | _ => false
  end.

Definition count (f : Effect -> bool) (t : list Effect) : nat :=
  List.length (filter f t).

(** What the pollers that answer return for [after], in registration
    order. *)
Definition resultsOf (after : Z)
           (ps : list (Z -> JsError + list PollResult)) : list PollResult :=
  flat_map (fun p => match p after with
                     | inr results => results
                     | inl _ => []
                     end) ps.

Definition setStopped (this : State) (flag : bool) : State :=
  {| stopped := flag; processLock := processLock this;
     lastCheck := lastCheck this |}.

(** The clock never runs backwards from [start] on, over the readings of
    [Date.now()] in a sequence of cycles. *)
Fixpoint monotoneClock (start : Z) (todo : list (Trigger * Env)) : Prop :=
  match todo with
  | [] => True
  | (_, env) :: rest => start <= now env /\ monotoneClock (now env) rest
  end.

(** The last reading of the clock in a sequence of cycles, [start] when
    there is none. *)
Definition lastNow (start : Z) (todo : list (Trigger * Env)) : Z :=
  last (map (fun c => now (snd c)) todo) start.

(** The parts of a cycle that differ between the two handlers: the text
    before the error in the [catch] clause, what is logged before the
    pollers are called, and the pause before the lock is released. *)
Definition catchPrefix (trigger : Trigger) : string :=
  match trigger with
  | Debounced _ => "Error handling change event: "
  | Fallback => "Error in fallback poll: "
  end.

Definition cycleLog (trigger : Trigger) (this : State) (env : Env)
  : list Effect :=
  match trigger with
  | Debounced _ => prevTimeLog (lastCheck this) (now env)
  | Fallback => []
  end.

Definition cyclePause (trigger : Trigger) (env : Env) : list Effect :=
  match trigger with
  | Debounced _ => if (0 <? nrWaiting env)%nat then [WaitMs 100] else []
  | Fallback => []
  end.

End CycleReadings.

(** ** The life cycle of the listener *)

Module Lifecycle.

Import IMessageListener.

Definition Poller : Type := Z -> JsError + list PollResult.

(** The listener object: the fields of the poll cycle ([cycleState]:
    [stopped], [processLock], [lastCheck]) and the others that [start],
    [stop] and [addPoller] use. The watcher is held by the paths it was
    created for, the fallback [ScheduledService] by its interval.
    [handlers] is the state of the event emitter that the class inherits
    ([this.emit], [this.removeAllListeners]): the registered listener
    functions, each by the name of its event and a number that identifies
    the function, in the order of registration. *)
Record Listener : Type := mkListener {
  cycleState : State;
  filePaths : list string;
  pollers : list Poller;
  watcher : option (list string);
  fallbackPoller : option Z;
  handlers : list (string * nat)
}.

(** The constructor. *)
Definition construct (filePaths : list string) : Listener :=
  {| cycleState := initial; filePaths := filePaths; pollers := [];
     watcher := None; fallbackPoller := None; handlers := [] |}.

Inductive Event : Type :=
| InCycle (e : Effect)
| StatSync (path : string)
| GetConfig (key : string)
| NewWatcher (paths : list string)
| WatcherOn (event : string)
| WatcherStart
| NewScheduledService (interval : Z) (flag : bool)
| ServiceStop
| RemoveAllListeners
| Debug (msg : string).

(** The collaborators during one call of a method of the listener:
    the clock read by the method itself ([new Date()] or [Date.now()]),
    [fs.statSync(path).mtime] in milliseconds (or the error it throws), the
    setting [db_poll_interval], an integer number of milliseconds ([None]
    when [getConfig] yields [null] or [undefined]), and what a poll cycle
    started by the method meets: its own
    reading of [Date.now()], what each listener function does when it is
    called with a result (it returns, or throws), what [emit] throws for an
    [error] event that has no listener, the message cache and the lock's
    waiters. *)
Record World : Type := mkWorld {
  clock : Z;
  statSync : string -> JsError + Z;
  db_poll_interval : option Z;
  cycleNow : Z;
  listeners : nat -> PollResult -> option JsError;
  unhandled : PollResult -> JsError;
  trim : option JsError;
  waiting : nat
}.

Definition LM := Run.M Listener Event.

(** The listener functions registered for an event, in order. *)
Definition handlersFor (eventType : string) (hs : list (string * nat))
  : list nat :=
  map snd (filter (fun h => String.eqb (fst h) eventType) hs).

(** Calling the listener functions one after the other: the first one
    that throws ends the call. *)
Fixpoint callEach (behaviour : nat -> PollResult -> option JsError)
         (ids : list nat) (result : PollResult) : option JsError :=
  match ids with
  | [] => None
  | id :: rest =>
      match behaviour id result with
      | Some e => Some e
      | None => callEach behaviour rest result
      end
  end.

(** [this.emit(result.eventType, result.data)] as Node's event emitter
    does it: the listeners of the event are called in the order of their
    registration; an [error] event without a listener throws. *)
Definition emitOn (w : World) (hs : list (string * nat))
           (result : PollResult) : option JsError :=
  match handlersFor (eventType result) hs with
  | [] => if String.eqb (eventType result) "error"
          then Some (unhandled w result) else None
  | ids => callEach (listeners w) ids result
  end.

(** The environment of a poll cycle of this listener. *)
Definition cycleEnv (w : World) (l : Listener) : Env :=
  {| now := cycleNow w; IMessageListener.pollers := pollers l;
     emit := emitOn w (handlers l); trimCaches := trim w;
     nrWaiting := waiting w |}.

Definition withCycleState (l : Listener) (s : State) : Listener :=
  {| cycleState := s; filePaths := filePaths l; pollers := pollers l;
     watcher := watcher l; fallbackPoller := fallbackPoller l;
     handlers := handlers l |}.

(** [this.on(eventType, listener)], inherited from the event emitter. *)
Definition on (eventType : string) (listener : nat) : LM unit :=
  l <- get ;;
  put {| cycleState := cycleState l; filePaths := filePaths l;
         pollers := pollers l; watcher := watcher l;
         fallbackPoller := fallbackPoller l;
         handlers := handlers l ++ [(eventType, listener)] |}.

(** A method of the poll cycle, run on the listener object. *)
Definition onCycle {A} (m : Env -> M A) (w : World) : LM A :=
  fun l =>
    match m (cycleEnv w l) (cycleState l) with
    | (o, s, t) => (o, withCycleState l s, map InCycle t)
    end.

Definition stop : LM unit :=
  l <- get ;;
  put (withCycleState l
         {| stopped := true; processLock := processLock (cycleState l);
            lastCheck := lastCheck (cycleState l) |}) ;;
  tell [RemoveAllListeners] ;;
  l <- get ;;
  put {| cycleState := cycleState l; filePaths := filePaths l;
         pollers := pollers l; watcher := watcher l;
         fallbackPoller := fallbackPoller l; handlers := [] |} ;;
  l <- get ;;
  match fallbackPoller l with
  | Some _ =>
      tell [ServiceStop] ;;
      put {| cycleState := cycleState l; filePaths := filePaths l;
             pollers := pollers l; watcher := watcher l;
             fallbackPoller := None; handlers := handlers l |}
  | None => ret tt
  end.

Definition addPoller (poller : Poller) : LM unit :=
  l <- get ;;
  put {| cycleState := cycleState l; filePaths := filePaths l;
         pollers := pollers l ++ [poller]; watcher := watcher l;
         fallbackPoller := fallbackPoller l; handlers := handlers l |}.

(** The loop of [getEarliestModifiedDate] over the remaining paths, with
    the local variable [earliest]. *)
Fixpoint earliestOf (w : World) (paths : list string) (earliest : Z) : LM Z :=
  match paths with
  | [] => ret earliest
  | filePath :: rest =>
      tell [StatSync filePath] ;;
      match statSync w filePath with
      | inl e => throw e
      | inr mtime =>
          earliestOf w rest (if mtime <? earliest then mtime else earliest)
      end
  end.

Definition getEarliestModifiedDate (w : World) : LM Z :=
  l <- get ;;
  earliestOf w (filePaths l) (clock w).

(** [Math.max(3000, Math.min(pollInterval, 30000))] after
    [getConfig("db_poll_interval") ?? 5000]. *)
Definition safeIntervalOf (setting : option Z) : Z :=
  let pollInterval := match setting with Some v => v | None => 5000 end in
  Z.max 3000 (Z.min pollInterval 30000).

(** The callback given to the fallback [ScheduledService]. [safeInterval]
    is an integer number of milliseconds, and so is [timeSinceLastCheck];
    for such numbers [timeSinceLastCheck > safeInterval * 0.8] in doubles is
    [5 * timeSinceLastCheck > 4 * safeInterval]: the product is exact when
    [4 * safeInterval / 5] is an integer and is otherwise not within 0.1 of
    an integer. *)
Definition fallbackTick (w : World) (safeInterval : Z) : LM unit :=
  l <- get ;;
  if stopped (cycleState l) then ret tt
  else
    let now := clock w in
    let timeSinceLastCheck := now - lastCheck (cycleState l) in
    if 5 * timeSinceLastCheck >? 4 * safeInterval then
      tell [Debug (String.append "Fallback poll triggered ("
                    (String.append (showNumber timeSinceLastCheck)
                                   "ms since last check)"))] ;;
      onCycle handleFallbackPoll w
    else ret tt.

(** The callback registered on the watcher for [change]. *)
Definition onChange (w : World) (event : FileChangeEvent) : LM unit :=
  onCycle (fun env => handleChangeEvent env event) w.

Definition start (w : World) : LM unit :=
  earliest <- getEarliestModifiedDate w ;;
  l <- get ;;
  put (withCycleState l
         {| stopped := false; processLock := processLock (cycleState l);
            lastCheck := earliest - 60000 |}) ;;
  l <- get ;;
  onCycle (fun env => poll env (lastCheck (cycleState l)) false) w ;;
  l <- get ;;
  tell [NewWatcher (filePaths l)] ;;
  put {| cycleState := cycleState l; filePaths := filePaths l;
         pollers := pollers l; watcher := Some (filePaths l);
         fallbackPoller := fallbackPoller l; handlers := handlers l |} ;;
  tell [WatcherOn "change"; WatcherOn "error"; WatcherStart] ;;
  tell [GetConfig "db_poll_interval"] ;;
  let safeInterval := safeIntervalOf (db_poll_interval w) in
  tell [Debug (String.append "Starting fallback poller with interval: "
                (String.append (showNumber safeInterval) "ms"))] ;;
  tell [NewScheduledService safeInterval true] ;;
  l <- get ;;
  put {| cycleState := cycleState l; filePaths := filePaths l;
         pollers := pollers l; watcher := watcher l;
         fallbackPoller := Some safeInterval; handlers := handlers l |}.

(** A poller that returns results for [after]. *)
Definition responds (after : Z) (poller : Poller) : Prop :=
  exists results, poller after = inr results.

(** Readings of a trace. *)
Fixpoint inCycle (t : list Event) : list Effect :=
  match t with
  | [] => []
  | InCycle e :: rest => e :: inCycle rest
  | _ :: rest => inCycle rest
  end.

Fixpoint statted (t : list Event) : list string :=
  match t with
  | [] => []
  | StatSync path :: rest => path :: statted rest
  | _ :: rest => statted rest
  end.

Definition isSetup (e : Event) : bool :=
  match e with
  | NewWatcher _ | WatcherOn _ | WatcherStart | NewScheduledService _ _ => true
  | _ => false
  end.

End Lifecycle.

(** ** Further readings of the service *)

Module ServiceReadings.

Import WebhookService.

(** The same clock and transport with another Subscription Store and
    another behaviour of [JSON.parse]. *)
Definition withStore (env : Env) (store : JsError + list Webhook)
           (parse : string -> JsError + Json) : Env :=
  {| now := now env; getWebhooks := store; JSON_parse := parse;
     axios_post := axios_post env |}.

(** The filter of [dispatch] throws [e] on the cache [cached]: [e] is
    the error of the first cached value without a method [includes]. *)
Definition filterThrows (cached : list CachedWebhook) (e : JsError) : Prop :=
  exists pre c post,
    cached = pre ++ c :: post /\
    Forall (fun x => noIncludes (eventTypes x) = None) pre /\
    noIncludes (eventTypes c) = Some e.

End ServiceReadings.

(** ** Concrete runs *)

Module ListenerScenario.

Import IMessageListener.

(** A reading of [Date.now()]. *)
Definition T : Z := 1700000000000.

Definition locked : JsError :=
  {| message := Some "database is locked";
     asString := "Error: database is locked";
     statusText := None |}.

Definition newMessage : PollResult :=
  {| eventType := "new-message"; data := "{}" |}.

(** Three pollers: one finds nothing, one finds a message, one throws. *)
Definition idlePoller : Z -> JsError + list PollResult := fun _ => inr [].

Definition messagePoller : Z -> JsError + list PollResult :=
  fun _ => inr [newMessage].

Definition brokenPoller : Z -> JsError + list PollResult :=
  fun _ => inl locked.

Definition listenerAt (lastCheck : Z) : State :=
  {| stopped := false; processLock := 1; lastCheck := lastCheck |}.

Definition envAt (now : Z) (pollers : list (Z -> JsError + list PollResult))
  : Env :=
  {| now := now; pollers := pollers; emit := fun _ => None;
     trimCaches := None; nrWaiting := 0 |}.

(** A listener whose emitter has a listener that throws. *)
Definition envThrowingListener (now : Z) : Env :=
  {| now := now; pollers := [messagePoller]; emit := fun _ => Some locked;
     trimCaches := None; nrWaiting := 1 |}.

End ListenerScenario.

Module WebhookScenario.

Import WebhookService.

(** The JSON text of an array with one string. *)
Definition oneFilter (eventType : string) : string :=
  String.append "[" (String.append (quoted eventType) "]").

Definition hookAll : Webhook :=
  {| url := "https://a.example/hook"; events := oneFilter "*" |}.

Definition hookNew : Webhook :=
  {| url := "https://b.example/hook"; events := oneFilter "msg-new" |}.

Definition hookDeleted : Webhook :=
  {| url := "https://c.example/hook"; events := oneFilter "msg-deleted" |}.

Definition hookNewToo : Webhook :=
  {| url := "https://d.example/hook"; events := oneFilter "msg-new" |}.

Definition hookBroken : Webhook :=
  {| url := "https://e.example/hook"; events := "msg-new" |}.

Definition syntaxError : JsError :=
  {| message := Some "Unexpected token m in JSON at position 0";
     asString := "SyntaxError: Unexpected token m in JSON at position 0";
     statusText := None |}.

Definition unreachable : JsError :=
  {| message := Some "SQLITE_BUSY: database is locked";
     asString := "Error: SQLITE_BUSY: database is locked";
     statusText := None |}.

Definition refused : JsError :=
  {| message := Some "Request failed with status code 503";
     asString := "AxiosError: Request failed with status code 503";
     statusText := Some "Service Unavailable" |}.


Definition hookNull : Webhook :=
  {| url := "https://g.example/hook"; events := "null" |}.

(** [JSON.parse] on the texts of this scenario. *)
Definition parse (text : string) : JsError + Json :=
  if String.eqb text (oneFilter "*") then inr (JArray [JString "*"])
  else if String.eqb text (oneFilter "msg-new")
  then inr (JArray [JString "msg-new"])
  else if String.eqb text (oneFilter "msg-deleted")
  then inr (JArray [JString "msg-deleted"])
  else if String.eqb text (quoted "msg-new") then inr (JString "msg-new")
  else if String.eqb text "null" then inr JNull
  else inl syntaxError.

Definition msg : WebhookEvent :=
  {| type := "msg";
     data := String.append "{" (String.append (quoted "id") ":2}") |}.

Definition msgNew : WebhookEvent :=
  {| type := "msg-new";
     data := String.append "{" (String.append (quoted "id") ":1}") |}.

Definition delivered : string -> WebhookEvent -> option JsError :=
  fun _ _ => None.

Definition secondRefuses : string -> WebhookEvent -> option JsError :=
  fun target _ => if String.eqb target (url hookNew) then Some refused
                  else None.

Definition envWith (now : Z) (store : JsError + list Webhook)
           (post : string -> WebhookEvent -> option JsError) : Env :=
  {| now := now; getWebhooks := store; JSON_parse := parse;
     axios_post := post |}.

Definition T : Z := 1700000000000.

End WebhookScenario.

Module CycleScenario.

Import IMessageListener ListenerScenario.

Definition secondMessage : PollResult :=
  {| eventType := "updated-message"; data := "{}" |}.

Definition twoMessagePoller : Z -> JsError + list PollResult :=
  fun _ => inr [newMessage; secondMessage].

(** The message cache throws from [trimCaches]. *)
Definition envTrimThrows (now : Z)
           (pollers : list (Z -> JsError + list PollResult)) : Env :=
  {| now := now; pollers := pollers; emit := fun _ => None;
     trimCaches := Some locked; nrWaiting := 2 |}.

(** A listener of the emitter throws on [updated-message] events. *)
Definition envListenerThrows (now : Z)
           (pollers : list (Z -> JsError + list PollResult)) : Env :=
  {| now := now; pollers := pollers;
     emit := fun r => if String.eqb (eventType r) "updated-message"
                      then Some locked else None;
     trimCaches := None; nrWaiting := 0 |}.

End CycleScenario.

Module LifecycleScenario.

Import IMessageListener Lifecycle ListenerScenario.

Definition missing : JsError :=
  {| message := Some "ENOENT: no such file or directory";
     asString := "Error: ENOENT: no such file or directory";
     statusText := None |}.

(** The database was last written 500 s ago, its write-ahead log 1 s ago;
    there is no shared-memory file. *)
Definition stat (path : string) : JsError + Z :=
  if String.eqb path "chat.db" then inr (T - 500000)
  else if String.eqb path "chat.db-wal" then inr (T - 1000)
  else inl missing.

Definition mtimeOf (path : string) : Z :=
  if String.eqb path "chat.db" then T - 500000 else T - 1000.

Definition worldAt (clock : Z) (setting : option Z) : World :=
  {| clock := clock; statSync := stat; db_poll_interval := setting;
     cycleNow := clock + 1; listeners := fun _ _ => None;
     unhandled := fun _ => locked; trim := None; waiting := 0 |}.

(** A world in which every listener function throws. *)
Definition hostileWorldAt (clock : Z) : World :=
  {| clock := clock; statSync := stat; db_poll_interval := None;
     cycleNow := clock + 1; listeners := fun _ _ => Some locked;
     unhandled := fun _ => locked; trim := None; waiting := 0 |}.

Definition fresh (pollers : list Poller) : Listener :=
  {| cycleState := initial; filePaths := ["chat.db"; "chat.db-wal"];
     pollers := pollers; watcher := None; fallbackPoller := None;
     handlers := [] |}.

Definition withMissingFile : Listener :=
  {| cycleState := initial;
     filePaths := ["chat.db"; "chat.db-shm"; "chat.db-wal"];
     pollers := [idlePoller]; watcher := None; fallbackPoller := None;
     handlers := [] |}.

(** A running listener with one function registered for [new-message]. *)
Definition subscribed : Listener :=
  {| cycleState := listenerAt (T - 4000); filePaths := ["chat.db"];
     pollers := [messagePoller; idlePoller]; watcher := Some ["chat.db"];
     fallbackPoller := Some 5000; handlers := [("new-message", 0%nat)] |}.

End LifecycleScenario.

(** * Properties *)

(** ** The monad *)

Section RunFacts.
Context {St Ev : Type}.

Lemma forOf_app {A} (xs ys : list A) (body : A -> Run.M St Ev unit) s :
  forOf (xs ++ ys) body s = (forOf xs body ;; forOf ys body) s.
Proof.
  revert s; induction xs as [|x xs IH]; intro s; simpl.
  - unfold bind, ret; simpl. destruct (forOf ys body s) as [[o s'] t]. reflexivity.
  - unfold bind in *. destruct (body x s) as [[[a|e|] s1] t1]; try reflexivity.
    rewrite IH. destruct (forOf xs body s1) as [[[b|e|] s2] t2]; try reflexivity.
    destruct (forOf ys body s2) as [[o s3] t3]. rewrite app_assoc. reflexivity.
Qed.

(** A callback that always returns, leaves the state alone and logs
    [h x], mapped over a list. *)
Lemma mapM_returns {A B} (f : A -> Run.M St Ev B) (g : A -> B)
      (h : A -> list Ev) :
  (forall x s, f x s = (Returned (g x), s, h x)) ->
  forall xs s, mapM f xs s = (Returned (map g xs), s, flat_map h xs).
Proof.
  intros Hf xs s. induction xs as [|x xs IH]; simpl.
  - reflexivity.
  - unfold bind at 1. rewrite Hf. unfold bind at 1. rewrite IH.
    unfold ret. rewrite app_nil_r. reflexivity.
Qed.

End RunFacts.

(** Projections of a finished run, computed. *)
Ltac run_simpl := unfold final, outcome, trace in *; simpl in *.

(** ** Reading traces of the listener *)

Section ListenerTraces.
Import IMessageListener.

Lemma polled_app t1 t2 : polled (t1 ++ t2) = polled t1 ++ polled t2.
Proof.
  induction t1 as [|e t1 IH]; simpl; [reflexivity|].
  destruct e; simpl; rewrite ?IH; reflexivity.
Qed.

Lemma emitLoop_quiet env results s :
  final (emitLoop env results s) = s /\
  outcome (emitLoop env results s) <> Blocked /\
  polled (trace (emitLoop env results s)) = [] /\
  existsb isTrim (trace (emitLoop env results s)) = false /\
  existsb isLogError (trace (emitLoop env results s)) = false.
Proof.
  unfold emitLoop. induction results as [|r rs IH]; simpl.
  - repeat split; discriminate.
  - unfold bind at 1. unfold perform, bind, tell, throw, ret; simpl.
    destruct (emit env r) as [e|]; simpl.
    + repeat split; discriminate.
    + destruct IH as (Hs & Ho & Hp & Ht & Hl).
      destruct (forOf rs _ s) as [[o s'] t]; simpl in *.
      repeat split; assumption.
Qed.

Lemma emitLoop_ok env results s :
  Forall (fun r => emit env r = None) results ->
  outcome (emitLoop env results s) = Returned tt.
Proof.
  unfold emitLoop. induction 1 as [|r rs Hr _ IH]; simpl; [reflexivity|].
  unfold bind at 1. unfold perform, bind, tell, throw, ret; simpl.
  rewrite Hr; simpl.
  destruct (forOf rs _ s) as [[o s'] t]; simpl in *. assumption.
Qed.

End ListenerTraces.

(** ** The loop over the pollers *)

Section PollLoop.
Import IMessageListener.

Lemma poll_pollFrom env after emitResults :
  poll env after emitResults = pollFrom env after emitResults 0 (pollers env).
Proof. reflexivity. Qed.

Lemma pollFrom_cons env after emitResults from p ps s :
  pollFrom env after emitResults from (p :: ps) s =
  ((results <- call (Poll from after) (p after) ;;
    if emitResults then emitLoop env results else ret tt) ;;
   pollFrom env after emitResults (S from) ps) s.
Proof. reflexivity. Qed.

(** The loop leaves the listener alone, never waits on a lock, and calls a
    prefix of the pollers, each with [after]. *)
Lemma pollFrom_spec env after emitResults ps :
  forall from s,
    let r := pollFrom env after emitResults from ps s in
    final r = s /\
    outcome r <> Blocked /\
    existsb isTrim (trace r) = false /\
    existsb isLogError (trace r) = false /\
    exists m,
      (m <= List.length ps)%nat /\
      polled (trace r) = map (fun i => (i, after)) (seq from m) /\
      (ps <> [] -> (0 < m)%nat) /\
      (outcome r = Returned tt -> m = List.length ps).
Proof.
  induction ps as [|p ps IH]; intros from s r.
  - subst r; simpl. repeat split; try discriminate.
    exists 0%nat. repeat split; auto. congruence.
  - subst r. rewrite pollFrom_cons.
    unfold bind at 1. unfold bind at 1. unfold call, bind, tell, throw, ret.
    simpl. destruct (p after) as [e|results]; simpl.
    + repeat split; try discriminate.
      exists 1%nat. repeat split; simpl; try lia; try discriminate.
    + assert (Htail : forall t1,
        polled t1 = [] -> existsb isTrim t1 = false ->
        existsb isLogError t1 = false ->
        let r := pollFrom env after emitResults (S from) ps s in
        let r' := (outcome r, final r, Poll from after :: t1 ++ trace r) in
        final r' = s /\ outcome r' <> Blocked /\
        existsb isTrim (trace r') = false /\
        existsb isLogError (trace r') = false /\
        exists m,
          (m <= S (List.length ps))%nat /\
          polled (trace r') = map (fun i => (i, after)) (seq from m) /\
          (p :: ps <> [] -> (0 < m)%nat) /\
          (outcome r' = Returned tt -> m = S (List.length ps))).
      { intros t1 Hp Ht Hl. specialize (IH (S from) s). simpl in IH.
        destruct (pollFrom env after emitResults (S from) ps s)
          as [[o2 s2] t2]; run_simpl.
        destruct IH as (Hs2 & Ho2 & Ht2 & Hl2 & m & Hm & Hp2 & Hne & Hret).
        rewrite !existsb_app, !polled_app, Ht, Hl, Hp, Ht2, Hl2, Hp2. simpl.
        repeat split; auto.
        exists (S m). repeat split; simpl; auto; lia. }
      destruct emitResults.
      * destruct (emitLoop_quiet env results s) as (Hs & Ho & Hp & Ht & Hl).
        destruct (emitLoop env results s) as [[[[]|e|] s1] t1]; run_simpl.
        -- subst s1. specialize (Htail t1 Hp Ht Hl).
           destruct (pollFrom env after true (S from) ps s) as [[o2 s2] t2].
           exact Htail.
        -- repeat split; try discriminate; auto.
           exists 1%nat. rewrite Hp.
           repeat split; simpl; try lia; discriminate.
        -- congruence.
      * specialize (Htail [] eq_refl eq_refl eq_refl).
        destruct (pollFrom env after false (S from) ps s) as [[o2 s2] t2].
        exact Htail.
Qed.

(** A poller that throws is the last one called. *)
Lemma pollFrom_abort env after pre :
  forall from p post e s,
    Forall (answers env after) pre ->
    p after = inl e ->
    let r := pollFrom env after true from (pre ++ p :: post) s in
    outcome r = Threw e /\
    polled (trace r) =
      map (fun i => (i, after)) (seq from (S (List.length pre))).
Proof.
  induction pre as [|q pre IH]; intros from p post e s Hpre Hp r; subst r.
  - simpl app. rewrite pollFrom_cons.
    unfold bind at 1. unfold bind at 1. unfold call, bind, tell, throw, ret.
    simpl. rewrite Hp. simpl. split; reflexivity.
  - inversion Hpre as [|? ? (results & Hq & Hemit) Hrest]; subst.
    simpl app. rewrite pollFrom_cons.
    unfold bind at 1. unfold bind at 1. unfold call, bind, tell, throw, ret.
    simpl. rewrite Hq. simpl.
    pose proof (emitLoop_ok env results s Hemit) as Hok.
    destruct (emitLoop_quiet env results s) as (Hs & _ & Hpl & _ & _).
    destruct (emitLoop env results s) as [[o1 s1] t1]; run_simpl.
    subst s1 o1.
    specialize (IH (S from) p post e s Hrest Hp). simpl in IH.
    destruct (pollFrom env after true (S from) (pre ++ p :: post) s)
      as [[o2 s2] t2]; run_simpl.
    destruct IH as [Ho2 Hp2]. rewrite polled_app, Hpl, Hp2. simpl.
    split; [assumption | reflexivity].
Qed.

End PollLoop.

(** ** The shape of a poll cycle *)

Section CycleShape.
Import IMessageListener.

Lemma handleFallbackPoll_run env this n :
  processLock this = S n ->
  let after := specFallbackLowerBound (lastCheck this) (now env) in
  let p := poll env after true (withLock this n) in
  handleFallbackPoll env this =
  (Returned tt,
   afterCycle (withLock this (S n)) env (outcome p),
   Acquire :: trace p ++
     afterPoll "Error in fallback poll: " [] env (outcome p)).
Proof.
  intros Hlock after p.
  pose proof (pollFrom_spec env after true (pollers env) 0%nat
                (withLock this n)) as Hp.
  rewrite <- poll_pollFrom in Hp. fold p in Hp. simpl in Hp.
  destruct Hp as (Hfinal & Hblocked & _).
  unfold handleFallbackPoll, acquire.
  unfold bind at 1. unfold get at 1. unfold bind at 1. rewrite Hlock.
  unfold bind at 1. unfold put, tell. cbn [app].
  unfold tryFinally, tryCatch.
  unfold bind at 1. unfold get at 1. cbn [lastCheck].
  unfold bind at 1.
  change (poll env _ true _) with p.
  destruct p as [[[[]|e|] s1] t1]; run_simpl; subst s1.
  - unfold withLock, withLastCheck, perform, setLastCheck, release, bind,
      get, put, tell, throw, ret; simpl.
    destruct (trimCaches env) as [e|]; simpl;
      rewrite <- ?app_assoc; reflexivity.
  - unfold withLock, release, bind, get, put, tell; simpl.
    rewrite <- ?app_assoc; reflexivity.
  - congruence.
Qed.

Lemma handleChangeEvent_run env event this n :
  processLock this = S n ->
  let after := specDebouncedLowerBound (lastCheck this) (now env) in
  let p := poll env after true (withLock this n) in
  handleChangeEvent env event this =
  (Returned tt,
   afterCycle (withLock this (S n)) env (outcome p),
   Acquire :: prevTimeLog (lastCheck this) (now env) ++ trace p ++
     afterPoll "Error handling change event: "
       (if (0 <? nrWaiting env)%nat then [WaitMs 100] else [])
       env (outcome p)).
Proof.
  intros Hlock after p.
  pose proof (pollFrom_spec env after true (pollers env) 0%nat
                (withLock this n)) as Hp.
  rewrite <- poll_pollFrom in Hp. fold p in Hp. simpl in Hp.
  destruct Hp as (Hfinal & Hblocked & _).
  unfold handleChangeEvent, acquire.
  unfold bind at 1. unfold get at 1. unfold bind at 1. rewrite Hlock.
  unfold bind at 1. unfold put, tell. cbn [app].
  unfold tryFinally, tryCatch.
  unfold bind at 1. unfold get at 1. cbn [lastCheck].
  unfold bind at 1.
  subst p after. unfold specDebouncedLowerBound, prevTimeLog in *.
  destruct ((lastCheck this <=? 0) || (lastCheck this >? now env));
    [| destruct (now env - lastCheck this >? 86400000)];
    unfold perform, setLastCheck, release;
    unfold bind, tell, ret, get, put, throw, withLock, withLastCheck in *;
    cbn [app lastCheck stopped processLock] in *;
    match goal with
    | |- context [poll env ?a true ?s] =>
        destruct (poll env a true s) as [[[[]|e|] s1] t1]
    end;
    unfold final, outcome, trace, afterCycle, afterPoll, withLastCheck in *;
    cbn [fst snd app lastCheck stopped processLock] in *;
    try congruence; subst s1;
    try (destruct (trimCaches env) as [e'|]);
    try (destruct (0 <? nrWaiting env)%nat);
    cbn [fst snd app lastCheck stopped processLock];
    rewrite <- ?app_assoc; reflexivity.
Qed.

End CycleShape.

(** ** What a cycle passes to the pollers *)

Section Windows.
Import IMessageListener.

Lemma polled_afterPoll msg pause env o :
  polled pause = [] -> polled (afterPoll msg pause env o) = [].
Proof.
  intros Hpause. unfold afterPoll.
  destruct o as [[]|e|]; simpl; try reflexivity.
  destruct (trimCaches env); simpl; try reflexivity.
  rewrite polled_app, Hpause. reflexivity.
Qed.

Lemma polled_prevTimeLog lastCheck now : polled (prevTimeLog lastCheck now) = [].
Proof.
  unfold prevTimeLog.
  destruct ((lastCheck <=? 0) || (lastCheck >? now)); [reflexivity|].
  destruct (now - lastCheck >? 86400000); reflexivity.
Qed.

Lemma poll_passes env after s :
  passesToPollers env (trace (poll env after true s)) after.
Proof.
  rewrite poll_pollFrom.
  destruct (pollFrom_spec env after true (pollers env) 0%nat s)
    as (_ & _ & _ & _ & m & Hm & Hp & Hne & _).
  exists m. auto.
Qed.

(** Every cycle that gets the lock returns normally and calls the pollers
    with the lower bound of its trigger. *)
Lemma cycle_run trigger env this n :
  processLock this = S n ->
  let after := lowerBound trigger (lastCheck this) (now env) in
  let p := poll env after true (withLock this n) in
  outcome (cycle trigger env this) = Returned tt /\
  final (cycle trigger env this) =
    afterCycle (withLock this (S n)) env (outcome p) /\
  polled (trace (cycle trigger env this)) = polled (trace p).
Proof.
  intros Hlock after p. subst after p.
  destruct trigger as [event|]; simpl cycle; simpl lowerBound.
  - rewrite (handleChangeEvent_run env event this n Hlock). run_simpl.
    repeat split.
    rewrite !polled_app, polled_prevTimeLog, polled_afterPoll.
    + simpl. apply app_nil_r.
    + destruct (0 <? nrWaiting env)%nat; reflexivity.
  - rewrite (handleFallbackPoll_run env this n Hlock). run_simpl.
    repeat split.
    rewrite !polled_app, polled_afterPoll by reflexivity.
    apply app_nil_r.
Qed.

Lemma cycle_passes trigger env this n :
  processLock this = S n ->
  passesToPollers env (trace (cycle trigger env this))
    (lowerBound trigger (lastCheck this) (now env)).
Proof.
  intros Hlock.
  destruct (cycle_run trigger env this n Hlock) as (_ & _ & Hp).
  unfold passesToPollers. rewrite Hp. apply poll_passes.
Qed.

Lemma withLock_same this n : processLock this = n -> withLock this n = this.
Proof. intros <-. destruct this; reflexivity. Qed.

End Windows.

(** ** The window of a poll cycle *)

Section WindowClaims.
Import IMessageListener ListenerScenario.

(** C1, as stated, fails: a fallback cycle entered with
    [lastCheck = now + 5000] at [now = T] does not pass [now - 60000] to the
    poller; it passes [lastCheck - 30000 = now - 25000]. *)
Lemma C1_fallback_skew_counterexample :
  lastCheck (listenerAt (T + 5000)) = now (envAt T [idlePoller]) + 5000 /\
  polled (trace (handleFallbackPoll (envAt T [idlePoller])
                                    (listenerAt (T + 5000))))
    = [(0%nat, T - 25000)] /\
  ~ passesToPollers (envAt T [idlePoller])
      (trace (handleFallbackPoll (envAt T [idlePoller])
                                 (listenerAt (T + 5000))))
      (now (envAt T [idlePoller]) - 60000).
Proof.
  split; [reflexivity|]. split; [vm_compute; reflexivity|].
  intros (m & Hm & Hne & Hp).
  assert (Hrun : polled (trace (handleFallbackPoll (envAt T [idlePoller])
                                  (listenerAt (T + 5000))))
                 = [(0%nat, 1699999975000)]) by (vm_compute; reflexivity).
  rewrite Hrun in Hp.
  destruct m as [|m]; simpl in Hp; [discriminate | inversion Hp].
Qed.

(** C1, amended: for every [lastCheck] and [now], a fallback cycle passes
    to the pollers [lastCheck - 30000] when that value is positive and not
    later than [now], and [now - 60000] when it exceeds [now] or is not
    positive. Entered with [lastCheck = now + 5000] it therefore passes
    [now - 25000] when [now > 25000] (and [now - 60000] otherwise): the
    reset needs a [lastCheck] more than 30 s ahead of [now], or one not
    above 30000. *)
Theorem C1_fallback_skew_window env this n :
  processLock this = S n ->
  (lastCheck this = now env + 5000 ->
   passesToPollers env (trace (handleFallbackPoll env this))
     (if now env <=? 25000 then now env - 60000 else now env - 25000)) /\
  (0 < lastCheck this - 30000 <= now env ->
   passesToPollers env (trace (handleFallbackPoll env this))
     (lastCheck this - 30000)) /\
  (now env < lastCheck this - 30000 \/ lastCheck this - 30000 <= 0 ->
   passesToPollers env (trace (handleFallbackPoll env this))
     (now env - 60000)).
Proof.
  intros Hlock.
  pose proof (cycle_passes Fallback env this n Hlock) as Hp.
  simpl in Hp. unfold specFallbackLowerBound in Hp. cbv zeta in Hp.
  split; [|split].
  - intros Hskew. rewrite Hskew in Hp.
    destruct (now env <=? 25000) eqn:Hsmall;
      destruct (now env + 5000 - 30000 >? now env) eqn:Hgt;
      destruct (now env + 5000 - 30000 <=? 0) eqn:Hle; simpl in Hp;
      try lia; try exact Hp.
    replace (now env - 25000) with (now env + 5000 - 30000) by lia.
    exact Hp.
  - intros Hvalid.
    destruct (lastCheck this - 30000 >? now env) eqn:Hgt; [lia|].
    destruct (lastCheck this - 30000 <=? 0) eqn:Hle; [lia|].
    exact Hp.
  - intros Hreset.
    destruct (lastCheck this - 30000 >? now env) eqn:Hgt; [exact Hp|].
    destruct (lastCheck this - 30000 <=? 0) eqn:Hle; [exact Hp|].
    lia.
Qed.

Lemma C1_fallback_skew_window_witness :
  passesToPollers (envAt T [idlePoller])
    (trace (handleFallbackPoll (envAt T [idlePoller])
                               (listenerAt (T + 5000))))
    (T - 25000) /\
  passesToPollers (envAt T [idlePoller])
    (trace (handleFallbackPoll (envAt T [idlePoller])
                               (listenerAt (T + 5000))))
    (T + 5000 - 30000) /\
  passesToPollers (envAt T [idlePoller])
    (trace (handleFallbackPoll (envAt T [idlePoller])
                               (listenerAt (T + 35000))))
    (T - 60000).
Proof.
  split; [|split].
  - exact (proj1 (C1_fallback_skew_window (envAt T [idlePoller])
                    (listenerAt (T + 5000)) 0 eq_refl) eq_refl).
  - apply (proj1 (proj2 (C1_fallback_skew_window (envAt T [idlePoller])
                           (listenerAt (T + 5000)) 0 eq_refl))).
    vm_compute. split; [reflexivity | discriminate].
  - apply (proj2 (proj2 (C1_fallback_skew_window (envAt T [idlePoller])
                           (listenerAt (T + 35000)) 0 eq_refl))).
    left. vm_compute. reflexivity.
Defined.

(** C2, as stated, fails on the fallback path: entered with a [lastCheck]
    that is 100000000 ms old, the cycle passes [now - 100030000] to the
    poller, which is earlier than [now - 24h - 30s]. *)
Lemma C2_fallback_stale_counterexample :
  polled (trace (cycle Fallback (envAt T [idlePoller])
                       (listenerAt (T - 100000000))))
    = [(0%nat, T - 100030000)] /\
  ~ exists L,
      passesToPollers (envAt T [idlePoller])
        (trace (cycle Fallback (envAt T [idlePoller])
                      (listenerAt (T - 100000000)))) L /\
      now (envAt T [idlePoller]) - 86400000 - 30000 <= L
        <= now (envAt T [idlePoller]).
Proof.
  split; [vm_compute; reflexivity|].
  intros (L & (m & Hm & Hne & Hp) & Hlow & Hhigh).
  assert (Hrun : polled (trace (cycle Fallback (envAt T [idlePoller])
                                  (listenerAt (T - 100000000))))
                 = [(0%nat, 1699899970000)]) by (vm_compute; reflexivity).
  rewrite Hrun in Hp.
  destruct m as [|m]; simpl in Hp; [discriminate|].
  injection Hp as HL _. subst L. vm_compute in Hlow. apply Hlow. reflexivity.
Qed.

Lemma specDebouncedLowerBound_bounds lastCheck now :
  now - 86400000 - 30000 <= specDebouncedLowerBound lastCheck now <= now.
Proof.
  unfold specDebouncedLowerBound. cbv zeta.
  destruct (lastCheck <=? 0) eqn:H0; destruct (lastCheck >? now) eqn:H1;
    simpl;
    try destruct (now - lastCheck >? 86400000) eqn:H2;
    match goal with
    | |- context [if ?c then _ else _] => destruct c eqn:H3
    end; lia.
Qed.

Lemma specFallbackLowerBound_bounds lastCheck now :
  specFallbackLowerBound lastCheck now <= now /\
  (now - lastCheck <= 86400000 \/ lastCheck <= 30000 ->
   now - 86400000 - 30000 <= specFallbackLowerBound lastCheck now).
Proof.
  unfold specFallbackLowerBound. cbv zeta.
  destruct (lastCheck - 30000 >? now) eqn:H0;
    destruct (lastCheck - 30000 <=? 0) eqn:H1; simpl; lia.
Qed.

(** C2, amended: every cycle passes to the pollers a lower bound [L] with
    [L <= now]. On the debounced path [now - 24h - 30s <= L] for every
    prior [lastCheck], zero, negative and future-dated ones included. On
    the fallback path [now - 24h - 30s <= L] is given when [lastCheck] is
    at most 24 h older than [now] or is not above 30000 (the reset). *)
Theorem C2_window_bounds trigger env this n :
  processLock this = S n ->
  exists L,
    passesToPollers env (trace (cycle trigger env this)) L /\
    L <= now env /\
    (match trigger with
     | Debounced _ => True
     | Fallback =>
         now env - lastCheck this <= 86400000 \/ lastCheck this <= 30000
     end ->
     now env - 86400000 - 30000 <= L).
Proof.
  intros Hlock.
  exists (lowerBound trigger (lastCheck this) (now env)).
  split; [apply (cycle_passes trigger env this n Hlock)|].
  destruct trigger as [event|]; simpl.
  - pose proof (specDebouncedLowerBound_bounds (lastCheck this) (now env)).
    split; [lia | intros _; lia].
  - apply specFallbackLowerBound_bounds.
Qed.

Lemma C2_window_bounds_witness :
  exists L,
    passesToPollers (envAt T [idlePoller])
      (trace (cycle Fallback (envAt T [idlePoller]) (listenerAt (T - 4000))))
      L /\
    T - 86400000 - 30000 <= L <= T.
Proof.
  destruct (C2_window_bounds Fallback (envAt T [idlePoller])
              (listenerAt (T - 4000)) 0 eq_refl) as (L & Hp & Hhigh & Hlow).
  exists L. split; [exact Hp|]. split; [|exact Hhigh].
  apply Hlow. left. vm_compute. discriminate.
Defined.

(** C4: a debounced cycle passes to the pollers the bound the specification
    describes: [prev = lastCheck], replaced by [now] when [prev <= 0] or
    [prev > now], else by [now - 86400000] when [now - prev > 86400000];
    the bound is [prev - 30000], or [now] if that exceeds [now]. With
    [lastCheck = 0] it is [now - 30000]; with the positive timestamp
    [lastCheck = now - 100000000] it is [now - 86400000 - 30000]. *)
Theorem C4_debounced_window env event this n :
  processLock this = S n ->
  passesToPollers env (trace (handleChangeEvent env event this))
    (specDebouncedLowerBound (lastCheck this) (now env)) /\
  (lastCheck this = 0 ->
   passesToPollers env (trace (handleChangeEvent env event this))
     (now env - 30000)) /\
  (lastCheck this = now env - 100000000 -> 0 < lastCheck this ->
   passesToPollers env (trace (handleChangeEvent env event this))
     (now env - 86400000 - 30000)).
Proof.
  intros Hlock.
  pose proof (cycle_passes (Debounced event) env this n Hlock) as Hp.
  simpl in Hp. split; [exact Hp|]. split.
  - intros Hseed. rewrite Hseed in Hp.
    assert (Hb : specDebouncedLowerBound 0 (now env) = now env - 30000).
    { unfold specDebouncedLowerBound. simpl.
      destruct (now env - 30000 >? now env) eqn:H; lia. }
    rewrite Hb in Hp. exact Hp.
  - intros Hstale Hpos. rewrite Hstale in Hp, Hpos.
    assert (Hb : specDebouncedLowerBound (now env - 100000000) (now env)
                 = now env - 86400000 - 30000).
    { unfold specDebouncedLowerBound. cbv zeta.
      destruct (now env - 100000000 <=? 0) eqn:H0;
        destruct (now env - 100000000 >? now env) eqn:H1; simpl; try lia.
      destruct (now env - (now env - 100000000) >? 86400000) eqn:H2;
        try lia.
      destruct (now env - 86400000 - 30000 >? now env) eqn:H3; lia. }
    rewrite Hb in Hp. exact Hp.
Qed.

Lemma C4_debounced_window_witness :
  passesToPollers (envAt T [idlePoller])
    (trace (handleChangeEvent (envAt T [idlePoller]) []
                              (listenerAt (T - 100000000))))
    (T - 86400000 - 30000) /\
  passesToPollers (envAt T [idlePoller])
    (trace (handleChangeEvent (envAt T [idlePoller]) [] (listenerAt 0)))
    (T - 30000).
Proof.
  split.
  - apply (proj2 (proj2 (C4_debounced_window (envAt T [idlePoller]) []
                           (listenerAt (T - 100000000)) 0 eq_refl)));
      reflexivity.
  - apply (proj1 (proj2 (C4_debounced_window (envAt T [idlePoller]) []
                           (listenerAt 0) 0 eq_refl))); reflexivity.
Defined.

End WindowClaims.

(** ** Failing cycles and the lock *)

Section CycleFailures.
Import IMessageListener ListenerScenario.

Lemma existsb_isTrim_quiet l :
  Forall (fun e => isTrim e = false) l -> existsb isTrim l = false.
Proof.
  induction 1 as [|e l He _ IH]; simpl; [reflexivity|].
  rewrite He, IH. reflexivity.
Qed.

(** C5: when a poller throws in a cycle (those registered before it having
    answered), the pollers registered after it are not called, the handler
    catches and logs the error and returns normally, and the completion
    steps are skipped: [trimCaches] is not called and the listener,
    [lastCheck] included, is as it was before the cycle. *)
Theorem C5_poller_error_aborts_cycle trigger env this n pre p post e :
  processLock this = S n ->
  pollers env = pre ++ p :: post ->
  let after := lowerBound trigger (lastCheck this) (now env) in
  Forall (answers env after) pre ->
  p after = inl e ->
  let r := cycle trigger env this in
  outcome r = Returned tt /\
  polled (trace r) = map (fun i => (i, after)) (seq 0 (S (List.length pre))) /\
  (forall i a, In (i, a) (polled (trace r)) -> (i <= List.length pre)%nat) /\
  In (LogError (caught trigger e)) (trace r) /\
  existsb isTrim (trace r) = false /\
  lastCheck (final r) = lastCheck this /\
  final r = this.
Proof.
  intros Hlock Hpollers after Hpre Hp r.
  pose proof (pollFrom_abort env after pre 0%nat p post e (withLock this n)
                Hpre Hp) as Habort.
  rewrite <- Hpollers, <- poll_pollFrom in Habort. simpl in Habort.
  destruct Habort as [Hout Hpolled].
  destruct (pollFrom_spec env after true (pollers env) 0%nat (withLock this n))
    as (_ & _ & Htrim & _).
  rewrite <- poll_pollFrom in Htrim.
  assert (Hshape :
    r = (Returned tt, withLock this (S n),
         trace r) /\
    polled (trace r) = polled (trace (poll env after true (withLock this n))) /\
    In (LogError (caught trigger e)) (trace r) /\
    existsb isTrim (trace r) = false).
  { subst r after. destruct trigger as [event|]; simpl cycle in *;
      simpl lowerBound in *.
    - rewrite (handleChangeEvent_run env event this n Hlock).
      rewrite Hout. unfold afterCycle, afterPoll, trace; cbn [fst snd].
      split; [reflexivity|]. split; [|split].
      + cbn [polled]. rewrite !polled_app, polled_prevTimeLog. simpl.
        rewrite app_nil_r. reflexivity.
      + right. apply in_or_app. right. apply in_or_app. right.
        left. reflexivity.
      + cbn [existsb isTrim]. rewrite !existsb_app.
        unfold trace in Htrim. rewrite Htrim. simpl.
        rewrite orb_false_r. unfold prevTimeLog.
        destruct ((lastCheck this <=? 0) || (lastCheck this >? now env));
          [reflexivity|].
        destruct (now env - lastCheck this >? 86400000); reflexivity.
    - rewrite (handleFallbackPoll_run env this n Hlock).
      rewrite Hout. unfold afterCycle, afterPoll, trace; cbn [fst snd].
      split; [reflexivity|]. split; [|split].
      + cbn [polled]. rewrite !polled_app. simpl.
        rewrite app_nil_r. reflexivity.
      + right. apply in_or_app. right. left. reflexivity.
      + cbn [existsb isTrim]. rewrite !existsb_app.
        unfold trace in Htrim. rewrite Htrim. reflexivity. }
  destruct Hshape as (Hr & Hpr & Hlog & Hnotrim).
  assert (Hfinal : final r = this).
  { rewrite Hr. unfold final; simpl. apply withLock_same. exact Hlock. }
  repeat split; auto.
  - rewrite Hr. reflexivity.
  - rewrite Hpr. exact Hpolled.
  - intros i a Hin. rewrite Hpr, Hpolled in Hin.
    destruct Hin as [Hhead|Hin]; [inversion Hhead; lia|].
    apply in_map_iff in Hin. destruct Hin as (j & Hj & Hseq).
    apply in_seq in Hseq. inversion Hj. lia.
  - rewrite Hfinal. reflexivity.
Qed.

Lemma C5_poller_error_aborts_cycle_witness :
  outcome (cycle Fallback
             (envAt T [messagePoller; brokenPoller; idlePoller])
             (listenerAt (T - 4000))) = Returned tt /\
  polled (trace (cycle Fallback
                   (envAt T [messagePoller; brokenPoller; idlePoller])
                   (listenerAt (T - 4000))))
    = [(0%nat, T - 34000); (1%nat, T - 34000)] /\
  final (cycle Fallback
           (envAt T [messagePoller; brokenPoller; idlePoller])
           (listenerAt (T - 4000))) = listenerAt (T - 4000).
Proof.
  pose proof (C5_poller_error_aborts_cycle Fallback
                (envAt T [messagePoller; brokenPoller; idlePoller])
                (listenerAt (T - 4000)) 0 [messagePoller] brokenPoller
                [idlePoller] locked eq_refl eq_refl) as H.
  simpl in H.
  destruct H as (Hout & Hpolled & _ & _ & _ & _ & Hfinal).
  - constructor; [|constructor].
    exists [newMessage]. split; [reflexivity|].
    constructor; [reflexivity|constructor].
  - reflexivity.
  - split; [exact Hout|]. split; [exact Hpolled | exact Hfinal].
Defined.

Lemma processLock_afterCycle this env o :
  processLock (afterCycle this env o) = processLock this.
Proof. destruct o; reflexivity. Qed.

(** One cycle gives back the token it took, whatever the pollers, the
    listeners and [trimCaches] do. *)
Lemma cycle_releases trigger env this n :
  processLock this = S n ->
  outcome (cycle trigger env this) = Returned tt /\
  processLock (final (cycle trigger env this)) = S n /\
  (exists middle,
     trace (cycle trigger env this) = Acquire :: middle ++ [Release]).
Proof.
  intros Hlock.
  destruct (cycle_run trigger env this n Hlock) as (Hout & Hfinal & _).
  split; [exact Hout|]. split.
  - rewrite Hfinal, processLock_afterCycle. reflexivity.
  - destruct (pollFrom_spec env
                (lowerBound trigger (lastCheck this) (now env)) true
                (pollers env) 0%nat (withLock this n)) as (_ & Hnb & _).
    rewrite <- poll_pollFrom in Hnb.
    destruct trigger as [event|]; simpl cycle; simpl lowerBound in *.
    + rewrite (handleChangeEvent_run env event this n Hlock).
      unfold trace at 1; cbn [snd].
      destruct (outcome (poll env _ true (withLock this n))) as [[]|e|];
        [| |congruence]; unfold afterPoll.
      * destruct (trimCaches env) as [e|].
        -- eexists. f_equal.
           rewrite (app_assoc (prevTimeLog _ _)).
           change (TrimCaches :: [LogError ?m; Release])
             with ([TrimCaches; LogError m] ++ [Release]).
           rewrite app_assoc. reflexivity.
        -- eexists. f_equal.
           rewrite (app_assoc (prevTimeLog _ _)).
           change (TrimCaches :: ?l ++ [Release])
             with ((TrimCaches :: l) ++ [Release]).
           rewrite app_assoc. reflexivity.
      * eexists. f_equal.
        rewrite (app_assoc (prevTimeLog _ _)).
        change ([LogError ?m; Release]) with ([LogError m] ++ [Release]).
        rewrite app_assoc. reflexivity.
    + rewrite (handleFallbackPoll_run env this n Hlock).
      unfold trace at 1; cbn [snd].
      destruct (outcome (poll env _ true (withLock this n))) as [[]|e|];
        [| |congruence]; unfold afterPoll.
      * destruct (trimCaches env) as [e|].
        -- eexists. f_equal.
           change (TrimCaches :: [LogError ?m; Release])
             with ([TrimCaches; LogError m] ++ [Release]).
           rewrite app_assoc. reflexivity.
        -- eexists. f_equal.
           change (TrimCaches :: [] ++ [Release])
             with ([TrimCaches] ++ [Release]).
           rewrite app_assoc. reflexivity.
      * eexists. f_equal.
        change ([LogError ?m; Release]) with ([LogError m] ++ [Release]).
        rewrite app_assoc. reflexivity.
Qed.

(** C10: every cycle, entered through the debounced handler or the
    fallback handler, releases the lock on exit, also when a poller, a
    listener of the emitter or [trimCaches] throws; so after any finite
    sequence of cycles on a free lock, the lock is free again, and no cycle
    was left waiting for it or ended in an error. *)
Theorem C10_lock_released_after_cycles todo :
  forall this n,
    processLock this = S n ->
    processLock (fst (cycles todo this)) = S n /\
    Forall (fun run =>
              fst run = Returned tt /\
              exists middle, snd run = Acquire :: middle ++ [Release])
           (snd (cycles todo this)) /\
    List.length (snd (cycles todo this)) = List.length todo.
Proof.
  induction todo as [|[trigger env] todo IH]; intros this n Hlock; simpl.
  - repeat split; auto.
  - destruct (cycle_releases trigger env this n Hlock) as (Hout & Hfree & Htr).
    destruct (cycle trigger env this) as [[o this'] t] eqn:Hrun.
    run_simpl. specialize (IH this' n Hfree).
    destruct (cycles todo this') as [final log]; simpl in *.
    destruct IH as (Hlast & Hall & Hlen).
    repeat split; auto.
Qed.

Lemma C10_lock_released_after_cycles_witness :
  processLock
    (fst (cycles [(Fallback, envAt T [messagePoller; brokenPoller]);
                  (Debounced [], envThrowingListener (T + 700));
                  (Fallback, envAt (T + 5000) [idlePoller])]
                 (listenerAt (T - 4000)))) = 1%nat.
Proof.
  exact (proj1 (C10_lock_released_after_cycles
                  [(Fallback, envAt T [messagePoller; brokenPoller]);
                   (Debounced [], envThrowingListener (T + 700));
                   (Fallback, envAt (T + 5000) [idlePoller])]
                  (listenerAt (T - 4000)) 0 eq_refl)).
Defined.

End CycleFailures.

(** ** The subscription cache and the fan-out *)

Section DispatchShape.
Import WebhookService.

Lemma attempted_all parse webhooks parsed :
  parseAll parse webhooks = inr parsed -> attempted parse webhooks = webhooks.
Proof.
  revert parsed; induction webhooks as [|w ws IH]; intros parsed H; simpl in *.
  - reflexivity.
  - destruct (parse (events w)) as [e|l]; [discriminate|].
    destruct (parseAll parse ws) as [e|parsed']; [discriminate|].
    rewrite (IH parsed' eq_refl). reflexivity.
Qed.

Lemma parseAll_webhooks parse webhooks parsed :
  parseAll parse webhooks = inr parsed -> map webhook parsed = webhooks.
Proof.
  revert parsed; induction webhooks as [|w ws IH]; intros parsed H; simpl in *.
  - inversion H. reflexivity.
  - destruct (parse (events w)) as [e|l]; [discriminate|].
    destruct (parseAll parse ws) as [e|parsed']; [discriminate|].
    inversion H. simpl. rewrite (IH parsed' eq_refl). reflexivity.
Qed.

(** The [map] of a cache fill. *)
Lemma parse_map env webhooks s :
  mapM (fun webhook =>
          eventTypes <- await (JsonParse (events webhook))
                          (JSON_parse env (events webhook)) ;;
          ret {| webhook := webhook; eventTypes := eventTypes |})
       webhooks s =
  (match parseAll (JSON_parse env) webhooks with
   | inr parsed => Returned parsed
   | inl e => Threw e
   end,
   s,
   map (fun w => JsonParse (events w)) (attempted (JSON_parse env) webhooks)).
Proof.
  induction webhooks as [|w ws IH]; simpl.
  - reflexivity.
  - unfold bind at 1. unfold bind at 1. unfold await, bind, tell, throw, ret.
    simpl. destruct (JSON_parse env (events w)) as [e|l]; simpl.
    + reflexivity.
    + unfold bind in IH. unfold await, bind, tell, throw, ret in IH.
      simpl in IH. rewrite IH.
      destruct (parseAll (JSON_parse env) ws) as [e|parsed];
        rewrite ?app_nil_r; reflexivity.
Qed.

Lemma getWebhooksWithCache_run env this :
  getWebhooksWithCache env this =
  match cacheHit this (now env) with
  | Some cached => (Returned cached, this, [])
  | None =>
      match getWebhooks env with
      | inl e => (Threw e, this, [GetWebhooks])
      | inr webhooks =>
          (match parseAll (JSON_parse env) webhooks with
           | inr parsed => Returned parsed
           | inl e => Threw e
           end,
           match parseAll (JSON_parse env) webhooks with
           | inr parsed =>
               {| webhookCache := Some parsed;
                  cacheExpiry := now env + CACHE_TTL_MS |}
           | inl _ => this
           end,
           GetWebhooks ::
             map (fun w => JsonParse (events w))
                 (attempted (JSON_parse env) webhooks))
      end
  end.
Proof.
  unfold getWebhooksWithCache. unfold bind at 1. unfold get at 1.
  destruct (cacheHit this (now env)) as [cached|]; [reflexivity|].
  unfold bind at 1. unfold await at 1. unfold bind at 1. unfold tell at 1.
  destruct (getWebhooks env) as [e|webhooks]; [reflexivity|].
  unfold ret at 1. cbn [app]. unfold bind at 1.
  rewrite parse_map.
  destruct (parseAll (JSON_parse env) webhooks) as [e|parsed].
  - reflexivity.
  - unfold bind, put, ret; simpl. rewrite app_nil_r. reflexivity.
Qed.

(** The [filter] of [dispatch]. *)
Lemma filter_run event cached (s : State) :
  filterM (St := State) (Ev := Effect)
          (fun c => match applicable event c with
                    | inl e => throw e
                    | inr keep => ret keep
                    end)
          cached s =
  (match matching event cached with
   | inr kept => Returned kept
   | inl e => Threw e
   end, s, []).
Proof.
  induction cached as [|c cached IH]; simpl.
  - reflexivity.
  - unfold bind at 1.
    destruct (applicable event c) as [e|keep]; [reflexivity|].
    unfold ret at 1. unfold bind at 1. rewrite IH.
    destruct (matching event cached) as [e|kept]; reflexivity.
Qed.

(** The [map] that initiates the deliveries. *)
Lemma initiate_map env event applicableWebhooks s :
  mapM (fun c =>
          let webhook := webhook c in
          tell [LogDebug (String.append "Dispatching event to webhook: "
                                        (url webhook))] ;;
          p <- sendPost env (url webhook) event ;;
          let (q, logs) := catch p (onRejected event webhook) in
          ret {| recipient := webhook; request := p;
                 chained := q; reaction := logs |})
       applicableWebhooks s =
  (Returned (map (delivery env event) applicableWebhooks), s,
   flat_map (initiation event) applicableWebhooks).
Proof.
  apply mapM_returns. intros c s'.
  unfold sendPost, bind, tell, ret, delivery, initiation.
  destruct (axios_post env (url (webhook c)) event) as [ex|]; reflexivity.
Qed.

Lemma dispatch_run env event this :
  dispatch env event this =
  match getWebhooksWithCache env this with
  | (Returned cachedWebhooks, this', t) =>
      match matching event cachedWebhooks with
      | inr kept =>
          (Returned (map (delivery env event) kept), this',
           t ++ flat_map (initiation event) kept)
      | inl e => (Threw e, this', t)
      end
  | r => (match fst (fst r) with
          | Threw e => Threw e
          | _ => Blocked
          end, snd (fst r), snd r)
  end.
Proof.
  unfold dispatch. unfold bind at 1.
  destruct (getWebhooksWithCache env this) as [[[cached|e|] this'] t];
    try reflexivity.
  unfold bind at 1. rewrite filter_run.
  destruct (matching event cached) as [e|kept]; rewrite ?app_nil_r;
    [reflexivity|].
  destruct kept as [|c cs].
  - simpl. rewrite app_nil_r. reflexivity.
  - cbv beta. cbn [List.length Nat.eqb].
    rewrite initiate_map. reflexivity.
Qed.

(** The filter on a cache whose entries all hold arrays. *)
Lemma matching_lists event cached :
  Forall hasFilterList cached ->
  matching event cached =
    inr (filter (fun c => listed "*" c || listed (type event) c) cached).
Proof.
  induction 1 as [|c cached (items & Hc) _ IH]; [reflexivity|].
  simpl. unfold applicable, includes, listed. rewrite Hc, IH.
  destruct (existsb (isString "*") items); simpl; [reflexivity|].
  destruct (existsb (isString (type event)) items); reflexivity.
Qed.


(** A filter that throws throws whatever the event. *)
Lemma matching_throws event event' cached e :
  matching event cached = inl e -> matching event' cached = inl e.
Proof.
  induction cached as [|c cached IH]; simpl; [discriminate|].
  unfold applicable, includes.
  destruct (eventTypes c) as [| | |s|items|]; simpl;
    try (intros H; exact H).
  - destruct (contains s "*"); [|destruct (contains s (type event))];
      (destruct (contains s "*"); [|destruct (contains s (type event'))]);
      destruct (matching event cached) as [e0|k]; try discriminate;
      intros H; inversion H; subst; rewrite (IH eq_refl); reflexivity.
  - destruct (existsb (isString "*") items);
      [|destruct (existsb (isString (type event)) items)];
      (destruct (existsb (isString "*") items);
       [|destruct (existsb (isString (type event')) items)]);
      destruct (matching event cached) as [e0|k]; try discriminate;
      intros H; inversion H; subst; rewrite (IH eq_refl); reflexivity.
Qed.

(** The filter throws at the first cached value without [includes]. *)
Lemma matching_inl event cached e :
  matching event cached = inl e <->
  exists pre c post,
    cached = pre ++ c :: post /\
    Forall (fun x => noIncludes (eventTypes x) = None) pre /\
    noIncludes (eventTypes c) = Some e.
Proof.
  induction cached as [|c cached IH]; simpl.
  - split; [discriminate|]. intros (pre & x & post & H & _).
    destruct pre; discriminate.
  - unfold applicable, includes.
    destruct (eventTypes c) as [|b|text|s|items|members] eqn:Hc; simpl.
    1,2,3,6:
      (split;
       [ intros H; inversion H; subst; exists (@nil CachedWebhook), c, cached;
         rewrite Hc; repeat split; constructor
       | intros (pre & x & post & Heq & Hpre & Hx);
         destruct pre as [|y pre]; simpl in Heq; inversion Heq; subst;
         [ rewrite Hc in Hx; simpl in Hx; inversion Hx; reflexivity
         | inversion Hpre as [|? ? Hy _]; subst; rewrite Hc in Hy;
           discriminate ] ]).
    all:
      (
       assert (Hgoal : matching event cached = inl e <->
         exists pre x post,
           c :: cached = pre ++ x :: post /\
           Forall (fun y => noIncludes (eventTypes y) = None) pre /\
           noIncludes (eventTypes x) = Some e)
       by (rewrite IH; split;
           [ intros (pre & x & post & Heq & Hpre & Hx);
             exists (c :: pre), x, post; subst; repeat split; auto;
             constructor; [rewrite Hc; reflexivity | exact Hpre]
           | intros (pre & x & post & Heq & Hpre & Hx);
             destruct pre as [|y pre]; simpl in Heq; inversion Heq; subst;
             [ rewrite Hc in Hx; discriminate
             | inversion Hpre; subst; exists pre, x, post; auto ] ])).
    + rewrite <- Hgoal.
      destruct (contains s "*"); [|destruct (contains s (type event))];
        destruct (matching event cached); split; intros H; inversion H;
        reflexivity.
    + rewrite <- Hgoal.
      destruct (existsb (isString "*") items);
        [|destruct (existsb (isString (type event)) items)];
        destruct (matching event cached); split; intros H; inversion H;
        reflexivity.
Qed.

End DispatchShape.

(** ** Reading traces of the service *)

Section ServiceTraces.
Import WebhookService.

Lemma storeReads_app t1 t2 :
  storeReads (t1 ++ t2) = (storeReads t1 + storeReads t2)%nat.
Proof. unfold storeReads. rewrite filter_app, length_app. reflexivity. Qed.

Lemma parses_app t1 t2 : parses (t1 ++ t2) = parses t1 ++ parses t2.
Proof.
  induction t1 as [|e t1 IH]; simpl; [reflexivity|].
  destruct e; simpl; rewrite ?IH; reflexivity.
Qed.

Lemma posts_app t1 t2 : posts (t1 ++ t2) = posts t1 ++ posts t2.
Proof.
  induction t1 as [|e t1 IH]; simpl; [reflexivity|].
  destruct e; simpl; rewrite ?IH; reflexivity.
Qed.

Lemma initiation_reads event cs :
  storeReads (flat_map (initiation event) cs) = 0%nat /\
  parses (flat_map (initiation event) cs) = [] /\
  posts (flat_map (initiation event) cs) =
    map (fun c => (url (webhook c), event)) cs.
Proof.
  induction cs as [|c cs (IH1 & IH2 & IH3)]; simpl.
  - repeat split.
  - repeat split; auto. rewrite IH3. reflexivity.
Qed.

Lemma parsing_reads ws :
  storeReads (map (fun w => JsonParse (events w)) ws) = 0%nat /\
  parses (map (fun w => JsonParse (events w)) ws) = map events ws /\
  posts (map (fun w => JsonParse (events w)) ws) = [].
Proof.
  induction ws as [|w ws (IH1 & IH2 & IH3)]; simpl.
  - repeat split.
  - repeat split; auto. rewrite IH2. reflexivity.
Qed.

Lemma getWebhooksWithCache_posts env this :
  posts (trace (getWebhooksWithCache env this)) = [].
Proof.
  rewrite getWebhooksWithCache_run.
  destruct (cacheHit this (now env)); [reflexivity|].
  destruct (getWebhooks env) as [e|ws]; [reflexivity|].
  unfold trace; simpl. apply parsing_reads.
Qed.

End ServiceTraces.

(** ** Dispatch *)

Section DispatchClaims.
Import WebhookService WebhookScenario.




Lemma Promise_all_fulfilled ps :
  Forall (fun p => p = Fulfilled) ps -> Promise_all ps = Fulfilled.
Proof.
  induction 1 as [|p ps Hp _ IH]; simpl; [reflexivity|].
  rewrite Hp. exact IH.
Qed.

(** Each element of [dispatchPromises] settles by its own request alone:
    the chained promise is fulfilled either way, and a rejected request
    leaves the three log lines of its [catch] handler. *)
Lemma deliveries_settle env event this :
  Forall (fun d =>
            request d = match axios_post env (url (recipient d)) event with
                        | None => Fulfilled
                        | Some ex => Rejected ex
                        end /\
            chained d = Fulfilled /\
            reaction d = match request d with
                         | Fulfilled => []
                         | Rejected ex => onRejected event (recipient d) ex
                         end)
         (deliveries (dispatch env event this)).
Proof.
  rewrite dispatch_run. unfold deliveries.
  destruct (getWebhooksWithCache env this) as [[[cached|e|] this'] t];
    run_simpl; try constructor.
  destruct (matching event cached) as [e|kept]; run_simpl; try constructor.
  apply Forall_forall. intros d Hd. apply in_map_iff in Hd.
  destruct Hd as (c & <- & _). unfold delivery; simpl.
  destruct (axios_post env (url (webhook c)) event); repeat split.
Qed.

Lemma detached_fulfilled env event this :
  detached (deliveries (dispatch env event this)) = Fulfilled.
Proof.
  unfold detached. rewrite Promise_all_fulfilled; [reflexivity|].
  apply Forall_forall. intros p Hp. apply in_map_iff in Hp.
  destruct Hp as (d & <- & Hd).
  pose proof (deliveries_settle env event this) as Hall.
  rewrite Forall_forall in Hall. apply (Hall d Hd).
Qed.

(** The behaviour of [axios.post] changes neither what [dispatch] does
    before it returns nor how it ends. *)
Lemma dispatch_withPost env event this post :
  let r := dispatch env event this in
  let r' := dispatch (withPost env post) event this in
  (trace r' = trace r /\ final r' = final r /\
   map recipient (deliveries r') = map recipient (deliveries r)) /\
  (forall e, outcome r' = Threw e <-> outcome r = Threw e).
Proof.
  intros r r'. subst r r'. rewrite !dispatch_run.
  change (getWebhooksWithCache (withPost env post) this)
    with (getWebhooksWithCache env this).
  destruct (getWebhooksWithCache env this) as [[[cached|e|] this'] t];
    unfold deliveries; run_simpl.
  - destruct (matching event cached) as [e|kept]; run_simpl.
    + split; [repeat split|]. intros e'. reflexivity.
    + split; [repeat split; rewrite !map_map; reflexivity|].
      intros e. split; discriminate.
  - split; [repeat split|]. intros e'. reflexivity.
  - split; [repeat split|]. intros e'. reflexivity.
Qed.

(** What [dispatch] initiates once the filter has kept [kept]. *)
Lemma dispatch_kept env event this cached kept :
  outcome (getWebhooksWithCache env this) = Returned cached ->
  matching event cached = inr kept ->
  outcome (dispatch env event this) =
    Returned (map (delivery env event) kept) /\
  posts (trace (dispatch env event this)) =
    map (fun c => (url (webhook c), event)) kept.
Proof.
  intros Hcache Hkept.
  pose proof (getWebhooksWithCache_posts env this) as Hquiet.
  rewrite dispatch_run.
  destruct (getWebhooksWithCache env this) as [[o this'] t].
  unfold outcome in Hcache. cbn [fst] in Hcache. subst o.
  unfold trace in Hquiet. cbn [snd] in Hquiet.
  rewrite Hkept. unfold outcome, trace. cbn [fst snd].
  split; [reflexivity|].
  rewrite posts_app, Hquiet. simpl. apply initiation_reads.
Qed.

(** C8: once the filter has kept the subscriptions [kept], a request is
    initiated to each of them, whatever the requests before it do; each
    request settles by the behaviour of its own target, a rejected one is
    caught and logged with the target, the error text and the status
    text, and nothing is left to reject. Whatever the deliveries do,
    [dispatch] makes the same calls and ends as it would if all of them
    succeeded. With three matching subscriptions whose second delivery is
    refused, all three requests are initiated and the first and the third
    are fulfilled. *)
Theorem C8_delivery_failures_isolated env event this post :
  let r := dispatch env event this in
  let r' := dispatch (withPost env post) event this in
  (forall cached kept,
     outcome (getWebhooksWithCache env this) = Returned cached ->
     matching event cached = inr kept ->
     posts (trace r') = map (fun c => (url (webhook c), event)) kept /\
     outcome r' = Returned (deliveries r') /\
     map recipient (deliveries r') = map webhook kept) /\
  (trace r' = trace r /\ final r' = final r /\
   map recipient (deliveries r') = map recipient (deliveries r)) /\
  (forall e, outcome r' = Threw e <-> outcome r = Threw e) /\
  Forall (fun d =>
            request d = match post (url (recipient d)) event with
                        | None => Fulfilled
                        | Some ex => Rejected ex
                        end /\
            chained d = Fulfilled /\
            reaction d =
              match request d with
              | Fulfilled => []
              | Rejected ex =>
                  [ LogDebug
                      (String.append "Failed to dispatch "
                        (String.append (quoted (type event))
                          (String.append " event to webhook: "
                                         (url (recipient d)))));
                    LogDebug (String.append "  -> Error: " (errorText ex));
                    LogDebug (String.append "  -> Status Text: "
                                            (template (statusText ex))) ]
              end)
         (deliveries r') /\
  detached (deliveries r') = Fulfilled /\
  (posts (trace (dispatch
                   (envWith T (inr [hookAll; hookNew; hookNewToo]) secondRefuses)
                   msgNew initial))
     = [(url hookAll, msgNew); (url hookNew, msgNew); (url hookNewToo, msgNew)]
   /\
   map (fun d => (recipient d, request d))
       (deliveries
          (dispatch
             (envWith T (inr [hookAll; hookNew; hookNewToo]) secondRefuses)
             msgNew initial))
     = [(hookAll, Fulfilled); (hookNew, Rejected refused);
        (hookNewToo, Fulfilled)]).
Proof.
  intros r r'. subst r r'.
  split.
  { intros cached kept Hcache Hkept.
    destruct (dispatch_kept (withPost env post) event this cached kept
                Hcache Hkept) as [Hout Hposts].
    split; [exact Hposts|]. unfold deliveries. rewrite Hout.
    split; [reflexivity|]. rewrite map_map. reflexivity. }
  split; [apply dispatch_withPost|].
  split; [apply dispatch_withPost|].
  split; [apply (deliveries_settle (withPost env post) event this)|].
  split; [apply detached_fulfilled|].
  vm_compute. split; reflexivity.
Qed.

Lemma C8_delivery_failures_isolated_witness :
  posts (trace (dispatch
                  (withPost
                     (envWith T (inr [hookAll; hookNew; hookNewToo]) delivered)
                     secondRefuses)
                  msgNew initial))
  = [(url hookAll, msgNew); (url hookNew, msgNew); (url hookNewToo, msgNew)].
Proof.
  exact (proj1 (proj1
    (C8_delivery_failures_isolated
       (envWith T (inr [hookAll; hookNew; hookNewToo]) delivered)
       msgNew initial secondRefuses)
    [ {| webhook := hookAll; eventTypes := JArray [JString "*"] |};
      {| webhook := hookNew; eventTypes := JArray [JString "msg-new"] |};
      {| webhook := hookNewToo; eventTypes := JArray [JString "msg-new"] |} ]
    [ {| webhook := hookAll; eventTypes := JArray [JString "*"] |};
      {| webhook := hookNew; eventTypes := JArray [JString "msg-new"] |};
      {| webhook := hookNewToo; eventTypes := JArray [JString "msg-new"] |} ]
    eq_refl eq_refl)).
Defined.

(** C3, as stated, fails: with an empty cache and a store whose read is
    rejected, [dispatch] rejects with that error; so it does with a
    registration whose filter list does not parse. *)
Lemma C3_dispatch_rejects_counterexample :
  outcome (dispatch (envWith T (inl unreachable) delivered) msgNew initial)
    = Threw unreachable /\
  outcome (dispatch (envWith T (inr [hookAll; hookBroken]) delivered)
                    msgNew initial)
    = Threw syntaxError /\
  ~ (forall env event this,
       exists ds, outcome (dispatch env event this) = Returned ds).
Proof.
  split; [vm_compute; reflexivity|]. split; [vm_compute; reflexivity|].
  intros Hnever.
  destruct (Hnever (envWith T (inl unreachable) delivered) msgNew initial)
    as (ds & Hds).
  vm_compute in Hds. discriminate.
Qed.

(** C3, amended: no behaviour of the outbound deliveries makes [dispatch]
    throw or reject, and the detached promise chain never rejects. The
    call rejects exactly in these cases, and the error reaches its caller:
    no valid cache entry exists and the read of the Subscription Store is
    rejected or the events text of a registration does not parse; or the
    cached registrations, just read or from a valid entry, hold a value
    that is neither an array nor a string, on which the filter throws a
    [TypeError]. *)
Theorem C3_dispatch_rejects_only_on_cache_fill env event this :
  (forall e,
     outcome (dispatch env event this) = Threw e <->
     (cacheHit this (now env) = None /\
      (getWebhooks env = inl e \/
       exists webhooks,
         getWebhooks env = inr webhooks /\
         parseAll (JSON_parse env) webhooks = inl e)) \/
     (exists cached pre c post,
        outcome (getWebhooksWithCache env this) = Returned cached /\
        cached = pre ++ c :: post /\
        Forall (fun x => noIncludes (eventTypes x) = None) pre /\
        noIncludes (eventTypes c) = Some e)) /\
  outcome (dispatch env event this) <> Blocked /\
  (forall post e,
     outcome (dispatch (withPost env post) event this) = Threw e <->
     outcome (dispatch env event this) = Threw e) /\
  detached (deliveries (dispatch env event this)) = Fulfilled.
Proof.
  split; [|split; [|split]].
  - intros e. rewrite dispatch_run.
    assert (Hfilter : forall cached,
      matching event cached = inl e <->
      exists pre c post,
        cached = pre ++ c :: post /\
        Forall (fun x => noIncludes (eventTypes x) = None) pre /\
        noIncludes (eventTypes c) = Some e)
      by (intros cached; apply matching_inl).
    rewrite getWebhooksWithCache_run.
    destruct (cacheHit this (now env)) as [cached|]; run_simpl.
    + split.
      * intros H. right.
        destruct (matching event cached) as [e0|kept] eqn:Hm; run_simpl;
          [|discriminate].
        inversion H; subst.
        destruct (proj1 (Hfilter cached) Hm) as (pre & c & post & Hx).
        exists cached, pre, c, post. split; [reflexivity | exact Hx].
      * intros [[Hmiss _] | (cached' & pre & c & post & Hc & Hx)];
          [discriminate|].
        inversion Hc; subst cached'.
        rewrite (proj2 (Hfilter cached)); [reflexivity|].
        exists pre, c, post. exact Hx.
    + destruct (getWebhooks env) as [e0|webhooks]; run_simpl.
      * split.
        -- intros H; inversion H. left. split; auto.
        -- intros [[_ [H | (ws & H & _)]] | (c' & pre & c & post & Hc & _)];
             inversion H || inversion Hc; reflexivity.
      * destruct (parseAll (JSON_parse env) webhooks) as [e0|parsed] eqn:Hp;
          run_simpl.
        -- split.
           ++ intros H; inversion H; subst. left. split; auto.
              right. exists webhooks. auto.
           ++ intros [[_ [H | (ws & H & Hws)]]
                     | (c' & pre & c & post & Hc & _)];
                [discriminate| |discriminate].
              inversion H; subst. rewrite Hp in Hws. inversion Hws.
              reflexivity.
        -- split.
           ++ intros H. right.
              destruct (matching event parsed) as [e0|kept] eqn:Hm; run_simpl;
                [|discriminate].
              inversion H; subst.
              destruct (proj1 (Hfilter parsed) Hm) as (pre & c & post & Hx).
              exists parsed, pre, c, post. split; [reflexivity | exact Hx].
           ++ intros [[_ [H | (ws & H & Hws)]]
                     | (c' & pre & c & post & Hc & Hx)].
              ** discriminate.
              ** inversion H; subst. rewrite Hp in Hws. discriminate.
              ** inversion Hc; subst c'.
                 rewrite (proj2 (Hfilter parsed)); [reflexivity|].
                 exists pre, c, post. exact Hx.
  - rewrite dispatch_run, getWebhooksWithCache_run.
    destruct (cacheHit this (now env)) as [cached|]; run_simpl.
    + destruct (matching event cached); discriminate.
    + destruct (getWebhooks env) as [e0|webhooks]; [discriminate|].
      destruct (parseAll (JSON_parse env) webhooks) as [e0|parsed];
        run_simpl; [discriminate|].
      destruct (matching event parsed); discriminate.
  - intros post e. apply dispatch_withPost.
  - apply detached_fulfilled.
Qed.

Lemma C3_dispatch_rejects_only_on_cache_fill_witness :
  outcome (dispatch (envWith T (inr [hookAll; hookNull]) secondRefuses)
                    msgNew initial) = Threw nullHasNoProperties /\
  outcome (dispatch (envWith T (inr [hookAll; hookNew]) secondRefuses)
                    msgNew initial) <> Threw refused.
Proof.
  split.
  - apply (proj2 (proj1 (C3_dispatch_rejects_only_on_cache_fill
                    (envWith T (inr [hookAll; hookNull]) secondRefuses)
                    msgNew initial) nullHasNoProperties)).
    right.
    exists [ {| webhook := hookAll; eventTypes := JArray [JString "*"] |};
             {| webhook := hookNull; eventTypes := JNull |} ],
           [ {| webhook := hookAll; eventTypes := JArray [JString "*"] |} ],
           {| webhook := hookNull; eventTypes := JNull |}, [].
    repeat split. repeat constructor.
  - intros H.
    apply (proj1 (C3_dispatch_rejects_only_on_cache_fill
                    (envWith T (inr [hookAll; hookNew]) secondRefuses)
                    msgNew initial) refused) in H.
    destruct H as [[_ [H | (ws & H & Hp)]]
                  | (cached & pre & c & post & Hc & Heq & Hpre & Hx)].
    + discriminate.
    + inversion H; subst. vm_compute in Hp. discriminate.
    + vm_compute in Hc. injection Hc as Hcached. rewrite <- Hcached in Heq.
      clear Hcached.
      destruct pre as [|x pre]; simpl in Heq.
      * inversion Heq; subst. discriminate.
      * destruct pre as [|y pre]; simpl in Heq.
        -- inversion Heq; subst. discriminate.
        -- destruct pre; discriminate.
Defined.

Lemma dispatch_storeReads_miss env event this :
  cacheHit this (now env) = None ->
  storeReads (trace (dispatch env event this)) = 1%nat.
Proof.
  intros Hmiss. rewrite dispatch_run, getWebhooksWithCache_run, Hmiss.
  destruct (getWebhooks env) as [e|webhooks]; [reflexivity|].
  destruct (parsing_reads (attempted (JSON_parse env) webhooks))
    as (Hreads & _).
  destruct (parseAll (JSON_parse env) webhooks) as [e|parsed]; run_simpl.
  - unfold storeReads in *. simpl. f_equal. exact Hreads.
  - destruct (matching event parsed) as [e|kept]; run_simpl.
    + unfold storeReads in *. simpl. f_equal. exact Hreads.
    + change (GetWebhooks :: ?t) with ([GetWebhooks] ++ t).
      rewrite !storeReads_app, Hreads.
      destruct (initiation_reads event kept) as (-> & _).
      reflexivity.
Qed.

Lemma dispatch_hit env event this cached :
  cacheHit this (now env) = Some cached ->
  final (dispatch env event this) = this /\
  storeReads (trace (dispatch env event this)) = 0%nat /\
  parses (trace (dispatch env event this)) = [].
Proof.
  intros Hhit. rewrite dispatch_run, getWebhooksWithCache_run, Hhit.
  run_simpl.
  destruct (matching event cached) as [e|kept]; run_simpl;
    [repeat split|].
  destruct (initiation_reads event kept) as (H1 & H2 & _).
  repeat split; assumption.
Qed.

(** C6: a [dispatch] that finds no valid cache entry reads the
    Subscription Store once and parses the filter list of each registration
    once; a second [dispatch] before the entry expires reads nothing and
    parses nothing, so the two calls make one read, on the first call.
    [invalidateCache] discards the entry whatever its remaining lifetime,
    and the next [dispatch], at any time, reads the store again. *)
Theorem C6_cache_reads this env1 env2 env3 event1 event2 event3
        webhooks parsed :
  cacheHit this (now env1) = None ->
  getWebhooks env1 = inr webhooks ->
  parseAll (JSON_parse env1) webhooks = inr parsed ->
  now env2 < now env1 + 30000 ->
  let r1 := dispatch env1 event1 this in
  let r2 := dispatch env2 event2 (final r1) in
  let cleared := final (invalidateCache (final r1)) in
  let r3 := dispatch env3 event3 cleared in
  (storeReads (trace r1) = 1%nat /\
   parses (trace r1) = map events webhooks /\
   final r1 = {| webhookCache := Some parsed;
                 cacheExpiry := now env1 + 30000 |}) /\
  (storeReads (trace r2) = 0%nat /\ parses (trace r2) = [] /\
   final r2 = final r1) /\
  storeReads (trace r1 ++ trace r2) = 1%nat /\
  (webhookCache cleared = None /\ cacheHit cleared (now env3) = None) /\
  storeReads (trace r3) = 1%nat.
Proof.
  intros Hmiss Hstore Hparse Hvalid r1 r2 cleared r3.
  assert (Hfinal1 : final r1 = {| webhookCache := Some parsed;
                                  cacheExpiry := now env1 + 30000 |}).
  { subst r1. rewrite dispatch_run, getWebhooksWithCache_run.
    rewrite Hmiss, Hstore, Hparse.
    destruct (matching event1 parsed); reflexivity. }
  assert (Hreads1 : storeReads (trace r1) = 1%nat)
    by (apply dispatch_storeReads_miss; exact Hmiss).
  assert (Hparses1 : parses (trace r1) = map events webhooks).
  { subst r1. rewrite dispatch_run, getWebhooksWithCache_run.
    rewrite Hmiss, Hstore, Hparse. run_simpl.
    rewrite (attempted_all _ _ _ Hparse).
    destruct (parsing_reads webhooks) as (_ & Hparses & _).
    destruct (matching event1 parsed) as [e|kept]; run_simpl;
      [exact Hparses|].
    rewrite parses_app, Hparses.
    destruct (initiation_reads event1 kept) as (_ & -> & _).
    apply app_nil_r. }
  assert (Hhit : cacheHit (final r1) (now env2) = Some parsed).
  { rewrite Hfinal1. unfold cacheHit. simpl.
    apply Z.ltb_lt in Hvalid. rewrite Hvalid. reflexivity. }
  destruct (dispatch_hit env2 event2 (final r1) parsed Hhit)
    as (Hfinal2 & Hreads2 & Hparses2).
  fold r2 in Hfinal2, Hreads2, Hparses2.
  split; [auto|]. split; [auto|].
  split; [rewrite storeReads_app, Hreads1, Hreads2; reflexivity|].
  split; [split; reflexivity|].
  apply dispatch_storeReads_miss. reflexivity.
Qed.

Lemma C6_cache_reads_witness :
  storeReads
    (trace (dispatch (envWith T (inr [hookAll; hookNew]) delivered)
                     msgNew initial)
     ++ trace (dispatch (envWith (T + 29999) (inr [hookDeleted]) delivered)
                        msgNew
                        (final (dispatch
                                  (envWith T (inr [hookAll; hookNew]) delivered)
                                  msgNew initial))))
    = 1%nat.
Proof.
  refine (proj1 (proj2 (proj2
    (C6_cache_reads initial
       (envWith T (inr [hookAll; hookNew]) delivered)
       (envWith (T + 29999) (inr [hookDeleted]) delivered)
       (envWith (T + 1) (inl unreachable) delivered)
       msgNew msgNew msgNew [hookAll; hookNew]
       [ {| webhook := hookAll; eventTypes := JArray [JString "*"] |};
         {| webhook := hookNew; eventTypes := JArray [JString "msg-new"] |} ]
       eq_refl eq_refl eq_refl _)))).
  vm_compute. reflexivity.
Defined.

End DispatchClaims.

(** ** The debounced trigger *)

Section DebounceClaims.
Import IMessageListener Debounce.

Lemma last_cons {A} (x d : A) l : last (x :: l) d = last l x.
Proof.
  revert x d. induction l as [|y l IH]; intros x d; [reflexivity|].
  change (last (x :: y :: l) d) with (last (y :: l) d).
  rewrite (IH y d), (IH y x). reflexivity.
Qed.

(** During a burst the armed timer never comes due: only the timer of the
    last notification elapses. *)
Lemma invocations_burst wait later :
  forall first event,
    burst wait first later ->
    invocations wait later (Some (first + wait, event)) =
      [(fst (last later (first, event)) + wait,
        snd (last later (first, event)))].
Proof.
  induction later as [|[at_ next] later IH]; intros first event Hburst.
  - reflexivity.
  - destruct Hburst as [Hgap Hrest]. simpl invocations.
    assert (Hdue : (first + wait <=? at_) = false) by (apply Z.leb_gt; lia).
    rewrite Hdue. simpl app. rewrite (IH at_ next Hrest).
    rewrite (last_cons (at_, next) (first, event)). reflexivity.
Qed.

(** C9: a burst of one or more change notifications, each less than the
    500 ms wait after the one before, causes exactly one poll cycle on the
    debounced path; the handler is invoked once, 500 ms after the last
    notification of the burst and with its arguments, and not before. *)
Theorem C9_burst_one_cycle first event later :
  burst WAIT first later ->
  let arrivals := (first, event) :: later in
  invocations WAIT arrivals None =
    [(fst (last arrivals (first, event)) + 500,
      snd (last arrivals (first, event)))] /\
  List.length (debouncedCycles arrivals) = 1%nat /\
  Forall (fun arrival => fst arrival <= fst (last arrivals (first, event)))
         arrivals.
Proof.
  intros Hburst arrivals.
  assert (Hinv : invocations WAIT arrivals None =
                 [(fst (last arrivals (first, event)) + 500,
                   snd (last arrivals (first, event)))]).
  { subst arrivals. simpl invocations.
    rewrite (invocations_burst WAIT later first event Hburst).
    rewrite last_cons. reflexivity. }
  split; [exact Hinv|]. split.
  - unfold debouncedCycles. rewrite Hinv. reflexivity.
  - subst arrivals. clear Hinv. revert first event Hburst.
    induction later as [|[at_ next] later IH]; intros first event Hburst.
    + constructor; [simpl; lia | constructor].
    + destruct Hburst as [Hgap Hrest].
      specialize (IH at_ next Hrest).
      assert (Hlast : last ((first, event) :: (at_, next) :: later)
                           (first, event)
                      = last ((at_, next) :: later) (at_, next)).
      { rewrite !last_cons. reflexivity. }
      rewrite Hlast. constructor; [|exact IH].
      inversion IH as [|? ? Hhead _]; subst. simpl fst in *. lia.
Qed.

Lemma C9_burst_one_cycle_witness :
  invocations WAIT [(1000, ["chat.db"]); (1200, ["chat.db-wal"]);
                    (1650, ["chat.db-wal"])] None
    = [(2150, ["chat.db-wal"])].
Proof.
  refine (proj1 (C9_burst_one_cycle 1000 ["chat.db"]
                   [(1200, ["chat.db-wal"]); (1650, ["chat.db-wal"])] _)).
  vm_compute. repeat split; discriminate.
Defined.

End DebounceClaims.

(** * Further properties of the poll cycle *)

Section PollStateless.
Import IMessageListener CycleReadings.

Lemma emitLoop_cons env r rs s :
  emitLoop env (r :: rs) s =
  match emit env r with
  | Some e => (Threw e, s, [Emit r])
  | None =>
      (outcome (emitLoop env rs s), final (emitLoop env rs s),
       Emit r :: WaitMs 10 :: trace (emitLoop env rs s))
  end.
Proof.
  unfold emitLoop. simpl forOf.
  unfold bind at 1. unfold bind at 1. unfold perform, bind, tell, throw, ret.
  simpl. destruct (emit env r); [reflexivity|]. simpl.
  destruct (forOf rs _ s) as [[o s'] t]. reflexivity.
Qed.

Lemma emitLoop_stateless env rs s s0 :
  emitLoop env rs s =
  (outcome (emitLoop env rs s0), s, trace (emitLoop env rs s0)).
Proof.
  induction rs as [|r rs IH]; [reflexivity|].
  rewrite !emitLoop_cons. destruct (emit env r); [reflexivity|].
  rewrite IH. reflexivity.
Qed.

Lemma pollFrom_step env after emitResults from p ps s :
  pollFrom env after emitResults from (p :: ps) s =
  match p after with
  | inl e => (Threw e, s, [Poll from after])
  | inr results =>
      let inner := if emitResults then emitLoop env results s
                   else (Returned tt, s, []) in
      match outcome inner with
      | Returned _ =>
          let rest := pollFrom env after emitResults (S from) ps s in
          (outcome rest, final rest,
           Poll from after :: trace inner ++ trace rest)
      | Threw e => (Threw e, s, Poll from after :: trace inner)
      | Blocked => (Blocked, s, Poll from after :: trace inner)
      end
  end.
Proof.
  rewrite pollFrom_cons.
  unfold bind at 1. unfold bind at 1. unfold call, bind, tell, throw, ret.
  simpl. destruct (p after) as [e|results]; [reflexivity|]. simpl.
  destruct emitResults.
  - rewrite (emitLoop_stateless env results s s).
    destruct (outcome (emitLoop env results s)) as [[]|e|]; run_simpl;
      try reflexivity.
    destruct (pollFrom env after true (S from) ps s) as [[o2 s2] t2].
    reflexivity.
  - simpl.
    destruct (pollFrom env after false (S from) ps s) as [[o2 s2] t2].
    reflexivity.
Qed.

(** The loop over the pollers neither reads nor writes the listener. *)
Lemma pollFrom_stateless env after emitResults ps :
  forall from s s0,
    pollFrom env after emitResults from ps s =
    (outcome (pollFrom env after emitResults from ps s0), s,
     trace (pollFrom env after emitResults from ps s0)).
Proof.
  induction ps as [|p ps IH]; intros from s s0; [reflexivity|].
  rewrite !pollFrom_step. destruct (p after) as [e|results]; [reflexivity|].
  cbv zeta.
  assert (Hinner :
    (if emitResults then emitLoop env results s else (Returned tt, s, [])) =
    (outcome (if emitResults then emitLoop env results s0
              else (Returned tt, s0, [])),
     s,
     trace (if emitResults then emitLoop env results s0
            else (Returned tt, s0, [])))).
  { destruct emitResults; [apply emitLoop_stateless | reflexivity]. }
  rewrite Hinner.
  destruct (outcome (if emitResults then emitLoop env results s0
                     else (Returned tt, s0, []))) as [[]|e|];
    run_simpl; try reflexivity.
  rewrite (IH (S from) s s0). reflexivity.
Qed.

Lemma emitted_app t1 t2 : emitted (t1 ++ t2) = emitted t1 ++ emitted t2.
Proof.
  induction t1 as [|e t1 IH]; simpl; [reflexivity|].
  destruct e; simpl; rewrite ?IH; reflexivity.
Qed.

Lemma count_app f t1 t2 : count f (t1 ++ t2) = (count f t1 + count f t2)%nat.
Proof. unfold count. rewrite filter_app, length_app. reflexivity. Qed.

(** A loop over results that the listeners accept. *)
Lemma emitLoop_accepted env results s :
  Forall (fun r => emit env r = None) results ->
  let r := emitLoop env results s in
  outcome r = Returned tt /\
  emitted (trace r) = results /\
  polled (trace r) = [] /\
  count (isWait 10) (trace r) = List.length results /\
  count (isWait 100) (trace r) = 0%nat /\
  count isTrim (trace r) = 0%nat /\
  count isLock (trace r) = 0%nat.
Proof.
  induction 1 as [|r rs Hr _ IH]; [repeat split|].
  rewrite emitLoop_cons, Hr. simpl in IH.
  destruct IH as (Ho & He & Hp & Hw & Hw' & Ht & Hl). run_simpl.
  unfold count in *. simpl. rewrite He, Hw.
  repeat split; auto.
Qed.

(** A loop over pollers that all answer. *)
Lemma pollFrom_answered env after ps :
  forall from s,
    Forall (answers env after) ps ->
    let r := pollFrom env after true from ps s in
    outcome r = Returned tt /\
    polled (trace r) = map (fun i => (i, after)) (seq from (List.length ps)) /\
    emitted (trace r) = resultsOf after ps /\
    count (isWait 10) (trace r) = List.length (resultsOf after ps) /\
    count (isWait 100) (trace r) = 0%nat /\
    count isTrim (trace r) = 0%nat /\
    count isLock (trace r) = 0%nat.
Proof.
  induction ps as [|p ps IH]; intros from s Hall; [repeat split|].
  inversion Hall as [|? ? (results & Hp & Hemit) Hrest]; subst.
  rewrite pollFrom_step, Hp. cbv zeta.
  destruct (emitLoop_accepted env results s Hemit)
    as (Ho & He & Hpl & Hw & Hw' & Ht & Hl).
  rewrite Ho.
  destruct (IH (S from) s Hrest) as (Ho2 & Hp2 & He2 & Hwa & Hwb & Ht2 & Hl2).
  unfold resultsOf in *. simpl flat_map. rewrite Hp.
  run_simpl.
  rewrite !polled_app, !emitted_app, Hpl, He, Hp2, He2.
  change (Poll from after :: ?t) with ([Poll from after] ++ t).
  rewrite !count_app, Hw, Hw', Ht, Hl, Hwa, Hwb, Ht2, Hl2, length_app.
  repeat split; auto.
Qed.

End PollStateless.

Section CycleOutcomes.
Import IMessageListener CycleReadings ListenerScenario.

(** Both handlers in one equation. *)
Lemma cycle_shape trigger env this n :
  processLock this = S n ->
  let p := poll env (lowerBound trigger (lastCheck this) (now env)) true
                (withLock this n) in
  cycle trigger env this =
  (Returned tt,
   afterCycle (withLock this (S n)) env (outcome p),
   Acquire :: cycleLog trigger this env ++ trace p ++
     afterPoll (catchPrefix trigger) (cyclePause trigger env) env (outcome p)).
Proof.
  intros Hlock p. subst p. destruct trigger as [event|]; simpl.
  - apply (handleChangeEvent_run env event this n Hlock).
  - apply (handleFallbackPoll_run env this n Hlock).
Qed.

Lemma cycleLog_quiet trigger this env :
  polled (cycleLog trigger this env) = [] /\
  emitted (cycleLog trigger this env) = [] /\
  forall f, (forall msg, f (LogDebug msg) = false) ->
            count f (cycleLog trigger this env) = 0%nat.
Proof.
  destruct trigger as [event|]; simpl; [|repeat split].
  unfold prevTimeLog.
  destruct ((lastCheck this <=? 0) || (lastCheck this >? now env)).
  - repeat split. intros f Hf. unfold count. simpl. rewrite Hf. reflexivity.
  - destruct (now env - lastCheck this >? 86400000); repeat split.
    intros f Hf. unfold count. simpl. rewrite Hf. reflexivity.
Qed.

(** X1. A cycle in which every poller answers, the listeners accept every
    result and [trimCaches] returns: every poller is called, in
    registration order, with the lower bound of the trigger; every result
    is emitted, in order, each followed by one pause of 10 ms;
    [trimCaches] is called once, after the last poller; [lastCheck] becomes
    [now]; the lock is given back; and only the debounced handler pauses
    100 ms, when somebody waits for the lock. *)
Theorem cycle_completes trigger env this n :
  processLock this = S n ->
  let after := lowerBound trigger (lastCheck this) (now env) in
  Forall (answers env after) (pollers env) ->
  trimCaches env = None ->
  let r := cycle trigger env this in
  outcome r = Returned tt /\
  final r = {| stopped := stopped this; processLock := S n;
               lastCheck := now env |} /\
  polled (trace r) =
    map (fun i => (i, after)) (seq 0 (List.length (pollers env))) /\
  emitted (trace r) = resultsOf after (pollers env) /\
  count (isWait 10) (trace r) = List.length (resultsOf after (pollers env)) /\
  count (isWait 100) (trace r) =
    match trigger with
    | Debounced _ => if (0 <? nrWaiting env)%nat then 1%nat else 0%nat
    | Fallback => 0%nat
    end /\
  (exists body,
     trace r = Acquire :: body ++ TrimCaches :: cyclePause trigger env
                 ++ [Release] /\
     count isTrim body = 0%nat /\ count isLock body = 0%nat).
Proof.
  intros Hlock after Hall Htrim r. subst r.
  rewrite (cycle_shape trigger env this n Hlock). fold after.
  rewrite poll_pollFrom.
  destruct (pollFrom_answered env after (pollers env) 0%nat (withLock this n)
              Hall) as (Ho & Hp & He & Hw & Hw' & Ht & Hl).
  rewrite Ho. unfold afterPoll, afterCycle. rewrite Htrim. run_simpl.
  destruct (cycleLog_quiet trigger this env) as (Hlp & Hle & Hlc).
  rewrite !polled_app, !emitted_app, Hlp, Hle, Hp, He.
  change (TrimCaches :: ?t) with ([TrimCaches] ++ t).
  rewrite !polled_app, !emitted_app.
  change (Acquire :: ?t) with ([Acquire] ++ t).
  rewrite !count_app, Hw, Hw', !(Hlc _ (fun _ => eq_refl)).
  split; [reflexivity|]. split; [reflexivity|].
  split; [destruct trigger; simpl; [destruct (0 <? nrWaiting env)%nat|];
          simpl; rewrite ?app_nil_r; reflexivity|].
  split; [destruct trigger; simpl; [destruct (0 <? nrWaiting env)%nat|];
          simpl; rewrite ?app_nil_r; reflexivity|].
  split; [destruct trigger; simpl; [destruct (0 <? nrWaiting env)%nat|];
          unfold count; simpl; lia|].
  split; [destruct trigger; simpl; [destruct (0 <? nrWaiting env)%nat|];
          unfold count; simpl; lia|].
  exists (cycleLog trigger this env ++
          trace (pollFrom env after true 0 (pollers env) (withLock this n))).
  unfold trace.
  split; [rewrite <- !app_assoc; reflexivity|].
  rewrite !count_app, Ht, Hl, !(Hlc _ (fun _ => eq_refl)). split; reflexivity.
Qed.

Lemma cycle_completes_witness :
  emitted (trace (cycle (Debounced [])
                        (envAt T [messagePoller; idlePoller; messagePoller])
                        (listenerAt (T - 4000))))
    = [newMessage; newMessage] /\
  lastCheck (final (cycle (Debounced [])
                          (envAt T [messagePoller; idlePoller; messagePoller])
                          (listenerAt (T - 4000)))) = T.
Proof.
  assert (Hall : Forall (answers
                           (envAt T [messagePoller; idlePoller; messagePoller])
                           (lowerBound (Debounced []) (T - 4000) T))
                        [messagePoller; idlePoller; messagePoller]).
  { repeat constructor;
      [exists [newMessage] | exists [] | exists [newMessage]];
      split; try reflexivity; repeat constructor. }
  destruct (cycle_completes (Debounced [])
              (envAt T [messagePoller; idlePoller; messagePoller])
              (listenerAt (T - 4000)) 0 eq_refl Hall eq_refl)
    as (_ & Hfinal & _ & Hemitted & _).
  split; [exact Hemitted | exact (f_equal lastCheck Hfinal)].
Defined.

(** X2. When [trimCaches] throws after the pollers have answered, the
    handler logs the error and returns normally, but [lastCheck] has
    already been set to [now]; the debounced handler then skips its 100 ms
    pause, and the lock is given back. *)
Theorem cycle_trim_throws trigger env this n e :
  processLock this = S n ->
  let after := lowerBound trigger (lastCheck this) (now env) in
  Forall (answers env after) (pollers env) ->
  trimCaches env = Some e ->
  let r := cycle trigger env this in
  outcome r = Returned tt /\
  final r = {| stopped := stopped this; processLock := S n;
               lastCheck := now env |} /\
  In (LogError (caught trigger e)) (trace r) /\
  count isTrim (trace r) = 1%nat /\
  count (isWait 100) (trace r) = 0%nat /\
  emitted (trace r) = resultsOf after (pollers env).
Proof.
  intros Hlock after Hall Htrim r. subst r.
  rewrite (cycle_shape trigger env this n Hlock). fold after.
  rewrite poll_pollFrom.
  destruct (pollFrom_answered env after (pollers env) 0%nat (withLock this n)
              Hall) as (Ho & Hp & He & Hw & Hw' & Ht & Hl).
  rewrite Ho. unfold afterPoll, afterCycle. rewrite Htrim. run_simpl.
  destruct (cycleLog_quiet trigger this env) as (Hlp & Hle & Hlc).
  split; [reflexivity|]. split; [reflexivity|]. split.
  { right. apply in_or_app. right. apply in_or_app. right. right. left.
    destruct trigger; reflexivity. }
  rewrite !emitted_app, Hle, He.
  change (Acquire :: ?t) with ([Acquire] ++ t).
  rewrite !count_app, Hw', Ht, !(Hlc _ (fun _ => eq_refl)).
  repeat split; simpl; rewrite ?app_nil_r; reflexivity.
Qed.

Lemma cycle_trim_throws_witness :
  lastCheck (final (cycle (Debounced [])
                          (CycleScenario.envTrimThrows T [messagePoller])
                          (listenerAt (T - 4000)))) = T /\
  count (isWait 100)
        (trace (cycle (Debounced [])
                      (CycleScenario.envTrimThrows T [messagePoller])
                      (listenerAt (T - 4000)))) = 0%nat.
Proof.
  assert (Hall : Forall (answers (CycleScenario.envTrimThrows T [messagePoller])
                           (lowerBound (Debounced []) (T - 4000) T))
                        [messagePoller]).
  { repeat constructor. exists [newMessage].
    split; try reflexivity; repeat constructor. }
  destruct (cycle_trim_throws (Debounced [])
              (CycleScenario.envTrimThrows T [messagePoller])
              (listenerAt (T - 4000)) 0 locked eq_refl Hall eq_refl)
    as (_ & Hfinal & _ & _ & Hpause & _).
  split; [exact (f_equal lastCheck Hfinal) | exact Hpause].
Defined.

Lemma emitLoop_rejected env accepted r rest e s :
  Forall (fun x => emit env x = None) accepted ->
  emit env r = Some e ->
  let run := emitLoop env (accepted ++ r :: rest) s in
  outcome run = Threw e /\
  emitted (trace run) = accepted ++ [r] /\
  polled (trace run) = [] /\
  count isTrim (trace run) = 0%nat.
Proof.
  intros Hacc Hr. induction Hacc as [|x xs Hx _ IH]; simpl app.
  - rewrite emitLoop_cons, Hr. repeat split.
  - rewrite emitLoop_cons, Hx. simpl in IH.
    destruct IH as (Ho & He & Hp & Ht). run_simpl.
    rewrite He. repeat split; auto.
Qed.

Lemma pollFrom_listener_throws env after pre :
  forall from p post accepted r rest e s,
    Forall (answers env after) pre ->
    p after = inr (accepted ++ r :: rest) ->
    Forall (fun x => emit env x = None) accepted ->
    emit env r = Some e ->
    let run := pollFrom env after true from (pre ++ p :: post) s in
    outcome run = Threw e /\
    polled (trace run) =
      map (fun i => (i, after)) (seq from (S (List.length pre))) /\
    emitted (trace run) = resultsOf after pre ++ accepted ++ [r] /\
    count isTrim (trace run) = 0%nat.
Proof.
  induction pre as [|q pre IH];
    intros from p post accepted r rest e s Hpre Hp Hacc Hr; simpl app;
    cbv zeta.
  - rewrite pollFrom_step, Hp. cbv zeta.
    destruct (emitLoop_rejected env accepted r rest e s Hacc Hr)
      as (Ho & He & Hpl & Ht).
    rewrite Ho. run_simpl. rewrite He, Hpl. unfold count in *. simpl.
    repeat split; auto.
  - inversion Hpre as [|? ? (results & Hq & Hemit) Hrest]; subst.
    rewrite pollFrom_step, Hq. cbv zeta.
    destruct (emitLoop_accepted env results s Hemit)
      as (Ho & He & Hpl & _ & _ & Ht & _).
    rewrite Ho.
    destruct (IH (S from) p post accepted r rest e s Hrest Hp Hacc Hr)
      as (Ho2 & Hp2 & He2 & Ht2).
    unfold resultsOf in *. simpl flat_map. rewrite ?Hq. run_simpl.
    rewrite !polled_app, !emitted_app, Hpl, He, Hp2, He2.
    change (Poll from after :: ?t) with ([Poll from after] ++ t).
    rewrite !count_app, Ht, Ht2, <- app_assoc.
    repeat split; auto.
Qed.

(** X3. When a listener of the emitter throws on a result, the results
    after it are not emitted, the pollers after the current one are not
    called, [trimCaches] is not called, the handler logs the error and
    returns normally, and the listener object, [lastCheck] included, is as
    it was before the cycle. *)
Theorem cycle_listener_throws trigger env this n pre p post accepted r rest e :
  processLock this = S n ->
  pollers env = pre ++ p :: post ->
  let after := lowerBound trigger (lastCheck this) (now env) in
  Forall (answers env after) pre ->
  p after = inr (accepted ++ r :: rest) ->
  Forall (fun x => emit env x = None) accepted ->
  emit env r = Some e ->
  let run := cycle trigger env this in
  outcome run = Returned tt /\
  final run = this /\
  emitted (trace run) = resultsOf after pre ++ accepted ++ [r] /\
  polled (trace run) =
    map (fun i => (i, after)) (seq 0 (S (List.length pre))) /\
  count isTrim (trace run) = 0%nat /\
  In (LogError (caught trigger e)) (trace run).
Proof.
  intros Hlock Hpollers after Hpre Hp Hacc Hr run. subst run.
  rewrite (cycle_shape trigger env this n Hlock). fold after.
  rewrite poll_pollFrom, Hpollers.
  destruct (pollFrom_listener_throws env after pre 0%nat p post accepted r
              rest e (withLock this n) Hpre Hp Hacc Hr)
    as (Ho & Hpl & He & Ht).
  rewrite Ho. unfold afterPoll, afterCycle. run_simpl.
  destruct (cycleLog_quiet trigger this env) as (Hlp & Hle & Hlc).
  split; [reflexivity|].
  split; [apply withLock_same; exact Hlock|].
  rewrite !polled_app, !emitted_app, Hlp, Hle, Hpl, He.
  change (Acquire :: ?t) with ([Acquire] ++ t).
  rewrite !count_app, Ht, !(Hlc _ (fun _ => eq_refl)).
  split; [simpl; rewrite app_nil_r; reflexivity|].
  split; [simpl; rewrite app_nil_r; reflexivity|].
  split; [reflexivity|].
  right. apply in_or_app. right. apply in_or_app. right. left.
  destruct trigger; reflexivity.
Qed.

Lemma cycle_listener_throws_witness :
  emitted (trace (cycle Fallback
                   (CycleScenario.envListenerThrows T
                      [messagePoller; CycleScenario.twoMessagePoller;
                       messagePoller])
                   (listenerAt (T - 4000))))
    = [newMessage; newMessage; CycleScenario.secondMessage] /\
  final (cycle Fallback
           (CycleScenario.envListenerThrows T
              [messagePoller; CycleScenario.twoMessagePoller; messagePoller])
           (listenerAt (T - 4000))) = listenerAt (T - 4000).
Proof.
  assert (Hpre : Forall (answers
                           (CycleScenario.envListenerThrows T
                              [messagePoller; CycleScenario.twoMessagePoller;
                               messagePoller])
                           (lowerBound Fallback (T - 4000) T))
                        [messagePoller]).
  { repeat constructor. exists [newMessage].
    split; try reflexivity; repeat constructor. }
  assert (Hacc : Forall (fun x => emit
                           (CycleScenario.envListenerThrows T
                              [messagePoller; CycleScenario.twoMessagePoller;
                               messagePoller]) x = None)
                        [newMessage]).
  { repeat constructor. }
  destruct (cycle_listener_throws Fallback
              (CycleScenario.envListenerThrows T
                 [messagePoller; CycleScenario.twoMessagePoller;
                  messagePoller])
              (listenerAt (T - 4000)) 0 [messagePoller]
              CycleScenario.twoMessagePoller [messagePoller]
              [newMessage] CycleScenario.secondMessage [] locked
              eq_refl eq_refl Hpre eq_refl Hacc eq_refl)
    as (_ & Hfinal & Hemitted & _).
  split; [exact Hemitted | exact Hfinal].
Defined.

Lemma cycle_blocked trigger env this :
  processLock this = 0%nat ->
  cycle trigger env this = (Blocked, this, []).
Proof.
  intros Hlock. destruct trigger as [event|]; simpl;
    [unfold handleChangeEvent | unfold handleFallbackPoll];
    unfold acquire; unfold bind at 1; unfold get at 1; unfold bind at 1;
    rewrite Hlock; reflexivity.
Qed.

Lemma cycle_setStopped trigger env this flag :
  cycle trigger env (setStopped this flag) =
  (outcome (cycle trigger env this),
   setStopped (final (cycle trigger env this)) flag,
   trace (cycle trigger env this)).
Proof.
  destruct (processLock this) as [|n] eqn:Hlock.
  - rewrite (cycle_blocked trigger env this Hlock).
    rewrite (cycle_blocked trigger env (setStopped this flag) Hlock).
    repeat split.
  - rewrite (cycle_shape trigger env this n Hlock).
    rewrite (cycle_shape trigger env (setStopped this flag) n Hlock).
    cbv zeta. simpl lastCheck.
    rewrite !poll_pollFrom.
    rewrite (pollFrom_stateless env _ true (pollers env) 0%nat
               (withLock (setStopped this flag) n) (withLock this n)).
    run_simpl.
    destruct (fst (fst (pollFrom env
               (lowerBound trigger (lastCheck this) (now env)) true 0
               (pollers env) (withLock this n))));
      destruct trigger; reflexivity.
Qed.

(** X4. The handlers never consult [stopped]: a cycle on a listener whose
    flag has been set (as [stop] does) makes the same calls and ends in the
    same way as on the listener with its flag as it was, and leaves the
    flag as it found it. *)
Theorem cycle_ignores_stopped trigger env this flag :
  let r := cycle trigger env this in
  let r' := cycle trigger env (setStopped this flag) in
  outcome r' = outcome r /\
  trace r' = trace r /\
  final r' = setStopped (final r) flag.
Proof.
  intros r r'. subst r r'. rewrite cycle_setStopped. repeat split.
Qed.

Lemma cycle_polled env trigger this n :
  processLock this = S n ->
  Forall (answers env (lowerBound trigger (lastCheck this) (now env)))
         (pollers env) ->
  final (cycle trigger env this) =
    {| stopped := stopped this; processLock := S n; lastCheck := now env |}.
Proof.
  intros Hlock Hall.
  rewrite (cycle_shape trigger env this n Hlock), poll_pollFrom.
  destruct (pollFrom_answered env _ (pollers env) 0%nat (withLock this n)
              Hall) as (Ho & _).
  rewrite Ho. reflexivity.
Qed.

(** X5. After a cycle in which every poller answered at [now1], the next
    cycle, at a time [now2 >= now1] (and, on the debounced path, at most
    24 h later), polls from [now1 - 30000]: consecutive windows overlap by
    30 s. *)
Theorem next_window_overlaps trigger1 env1 trigger2 env2 this n :
  processLock this = S n ->
  Forall (answers env1 (lowerBound trigger1 (lastCheck this) (now env1)))
         (pollers env1) ->
  30000 < now env1 <= now env2 ->
  match trigger2 with
  | Debounced _ => now env2 - now env1 <= 86400000
  | Fallback => True
  end ->
  passesToPollers env2
    (trace (cycle trigger2 env2 (final (cycle trigger1 env1 this))))
    (now env1 - 30000).
Proof.
  intros Hlock Hall Hclock Hgap.
  rewrite (cycle_polled env1 trigger1 this n Hlock Hall).
  pose proof (cycle_passes trigger2 env2
                {| stopped := stopped this; processLock := S n;
                   lastCheck := now env1 |} n eq_refl) as Hp.
  simpl lastCheck in Hp.
  assert (Hbound : lowerBound trigger2 (now env1) (now env2)
                   = now env1 - 30000).
  { destruct trigger2 as [event|]; simpl.
    - unfold specDebouncedLowerBound. cbv zeta.
      destruct (now env1 <=? 0) eqn:H0; [lia|].
      destruct (now env1 >? now env2) eqn:H1; [lia|]. simpl.
      destruct (now env2 - now env1 >? 86400000) eqn:H2; [lia|].
      destruct (now env1 - 30000 >? now env2) eqn:H3; lia.
    - unfold specFallbackLowerBound. cbv zeta.
      destruct (now env1 - 30000 >? now env2) eqn:H0; [lia|].
      destruct (now env1 - 30000 <=? 0) eqn:H1; [lia|]. reflexivity. }
  rewrite Hbound in Hp. exact Hp.
Qed.

Lemma next_window_overlaps_witness :
  passesToPollers (envAt (T + 700) [idlePoller])
    (trace (cycle (Debounced []) (envAt (T + 700) [idlePoller])
                  (final (cycle Fallback (envAt T [idlePoller])
                                (listenerAt (T - 4000))))))
    (T - 30000).
Proof.
  refine (next_window_overlaps Fallback (envAt T [idlePoller])
            (Debounced []) (envAt (T + 700) [idlePoller])
            (listenerAt (T - 4000)) 0 eq_refl _ _ _).
  - repeat constructor. exists []. split; [reflexivity | constructor].
  - vm_compute. split; [reflexivity | discriminate].
  - vm_compute. discriminate.
Defined.

Lemma cycles_app todo1 todo2 this :
  fst (cycles (todo1 ++ todo2) this) =
  fst (cycles todo2 (fst (cycles todo1 this))).
Proof.
  revert this. induction todo1 as [|[trigger env] todo1 IH]; intros this.
  - reflexivity.
  - simpl. destruct (cycle trigger env this) as [[o this'] t].
    specialize (IH this').
    destruct (cycles (todo1 ++ todo2) this') as [f1 l1].
    destruct (cycles todo1 this') as [f2 l2]. simpl in *. exact IH.
Qed.

Lemma cycle_lastCheck trigger env this n :
  processLock this = S n ->
  processLock (final (cycle trigger env this)) = S n /\
  (lastCheck (final (cycle trigger env this)) = now env \/
   lastCheck (final (cycle trigger env this)) = lastCheck this).
Proof.
  intros Hlock. rewrite (cycle_shape trigger env this n Hlock).
  unfold final; simpl.
  destruct (outcome (poll env _ true (withLock this n))); simpl; auto.
Qed.

Lemma lastNow_cons start trigger env todo :
  lastNow start ((trigger, env) :: todo) = lastNow (now env) todo.
Proof. unfold lastNow. simpl map. apply last_cons. Qed.

(** While the clock does not run backwards, [lastCheck] stays between its
    first value and the last reading of the clock. *)
Lemma lastCheck_between todo :
  forall this n start,
    processLock this = S n ->
    lastCheck this <= start ->
    monotoneClock start todo ->
    processLock (fst (cycles todo this)) = S n /\
    lastCheck this <= lastCheck (fst (cycles todo this)) <= lastNow start todo.
Proof.
  induction todo as [|[trigger env] todo IH]; intros this n start Hlock Hle Hm.
  - simpl. unfold lastNow. simpl. split; [assumption | lia].
  - destruct Hm as [Hstart Hrest]. rewrite lastNow_cons. simpl.
    destruct (cycle_lastCheck trigger env this n Hlock) as [Hlock' Hlast].
    destruct (cycle trigger env this) as [[o this'] t]. run_simpl.
    assert (Hle' : lastCheck this' <= now env) by (destruct Hlast; lia).
    destruct (IH this' n (now env) Hlock' Hle' Hrest) as (Hl & Hlow & Hhigh).
    destruct (cycles todo this') as [f l]. simpl in *.
    split; [assumption|]. destruct Hlast; lia.
Qed.

Lemma monotoneClock_app start todo1 todo2 :
  monotoneClock start (todo1 ++ todo2) ->
  monotoneClock start todo1 /\ monotoneClock (lastNow start todo1) todo2.
Proof.
  revert start. induction todo1 as [|[trigger env] todo1 IH]; intros start H.
  - split; [exact I | exact H].
  - destruct H as [Hstart Hrest]. rewrite lastNow_cons.
    destruct (IH (now env) Hrest). repeat split; assumption.
Qed.

(** X6. While the readings of [Date.now()] do not decrease, starting at or
    after the first [lastCheck], no cycle lowers [lastCheck], whether it
    fails or not, and [lastCheck] never exceeds the reading of the cycle
    that ran last. *)
Theorem lastCheck_never_decreases todo trigger env this n :
  processLock this = S n ->
  monotoneClock (lastCheck this) (todo ++ [(trigger, env)]) ->
  lastCheck this <= lastCheck (fst (cycles todo this)) /\
  lastCheck (fst (cycles todo this))
    <= lastCheck (fst (cycles (todo ++ [(trigger, env)]) this))
    <= now env.
Proof.
  intros Hlock Hm.
  destruct (monotoneClock_app _ _ _ Hm) as [Hm1 [Hstep _]].
  destruct (lastCheck_between todo this n (lastCheck this) Hlock
              (Z.le_refl _) Hm1) as (Hlock1 & Hlow & Hhigh).
  rewrite cycles_app. simpl.
  destruct (cycle_lastCheck trigger env (fst (cycles todo this)) n Hlock1)
    as [_ Hlast].
  destruct (cycle trigger env (fst (cycles todo this))) as [[o this'] t].
  run_simpl. destruct Hlast; lia.
Qed.

Lemma lastCheck_never_decreases_witness :
  lastCheck (fst (cycles [(Fallback, envAt T [messagePoller; brokenPoller])]
                         (listenerAt (T - 4000))))
  <= lastCheck (fst (cycles ([(Fallback, envAt T [messagePoller; brokenPoller])]
                             ++ [(Debounced [], envAt (T + 700) [idlePoller])])
                            (listenerAt (T - 4000))))
  <= T + 700.
Proof.
  refine (proj2 (lastCheck_never_decreases
                   [(Fallback, envAt T [messagePoller; brokenPoller])]
                   (Debounced []) (envAt (T + 700) [idlePoller])
                   (listenerAt (T - 4000)) 0 eq_refl _)).
  vm_compute. repeat split; discriminate.
Defined.

End CycleOutcomes.

(** * Further properties of the service *)

Section CacheLife.
Import WebhookService ServiceReadings WebhookScenario.

Lemma dispatch_fill env event this webhooks parsed :
  cacheHit this (now env) = None ->
  getWebhooks env = inr webhooks ->
  parseAll (JSON_parse env) webhooks = inr parsed ->
  final (dispatch env event this) =
    {| webhookCache := Some parsed; cacheExpiry := now env + 30000 |}.
Proof.
  intros Hmiss Hstore Hparse.
  rewrite dispatch_run, getWebhooksWithCache_run, Hmiss, Hstore, Hparse.
  destruct (matching event parsed); reflexivity.
Qed.

(** X7. A cache entry filled at [now1] is no longer used at
    [now1 + 30000] or later: the next [dispatch] reads the Subscription
    Store again. *)
Theorem cache_entry_expires this env1 env2 event1 event2 webhooks parsed :
  cacheHit this (now env1) = None ->
  getWebhooks env1 = inr webhooks ->
  parseAll (JSON_parse env1) webhooks = inr parsed ->
  now env1 + 30000 <= now env2 ->
  storeReads (trace (dispatch env2 event2
                       (final (dispatch env1 event1 this)))) = 1%nat.
Proof.
  intros Hmiss Hstore Hparse Hlate.
  rewrite (dispatch_fill env1 event1 this webhooks parsed Hmiss Hstore Hparse).
  apply dispatch_storeReads_miss. unfold cacheHit. simpl.
  destruct (now env2 <? now env1 + 30000) eqn:H; [|reflexivity].
  apply Z.ltb_lt in H. lia.
Qed.

Lemma cache_entry_expires_witness :
  storeReads
    (trace (dispatch (envWith (T + 30000) (inr [hookDeleted]) delivered)
                     msgNew
                     (final (dispatch
                               (envWith T (inr [hookAll; hookNew]) delivered)
                               msgNew initial)))) = 1%nat.
Proof.
  refine (cache_entry_expires initial
            (envWith T (inr [hookAll; hookNew]) delivered)
            (envWith (T + 30000) (inr [hookDeleted]) delivered)
            msgNew msgNew [hookAll; hookNew]
            [ {| webhook := hookAll; eventTypes := JArray [JString "*"] |};
              {| webhook := hookNew;
                 eventTypes := JArray [JString "msg-new"] |} ]
            eq_refl eq_refl eq_refl _).
  vm_compute. discriminate.
Defined.

Lemma dispatch_on_hit env event this cached :
  cacheHit this (now env) = Some cached ->
  dispatch env event this =
  match matching event cached with
  | inr kept =>
      (Returned (map (delivery env event) kept), this,
       flat_map (initiation event) kept)
  | inl e => (Threw e, this, [])
  end.
Proof.
  intros Hhit. rewrite dispatch_run, getWebhooksWithCache_run, Hhit.
  destruct (matching event cached); reflexivity.
Qed.

(** X8. A [dispatch] that rejects has sent no request. When the store
    read or a parse failed, the cache fields are as they were (an expired
    entry is neither replaced nor cleared); when the filter threw on a
    value just read, the cache has been replaced by the list with that
    value; when it threw on a valid entry, nothing changed and the store
    was not read. While a valid entry holds such a value, every
    [dispatch], whatever the event, rejects with the same error, reads
    nothing and sends nothing. *)
Theorem rejected_dispatch_sends_nothing env event this e :
  outcome (dispatch env event this) = Threw e ->
  posts (trace (dispatch env event this)) = [] /\
  ((cacheHit this (now env) = None /\
    (getWebhooks env = inl e \/
     exists webhooks,
       getWebhooks env = inr webhooks /\
       parseAll (JSON_parse env) webhooks = inl e) /\
    final (dispatch env event this) = this /\
    storeReads (trace (dispatch env event this)) = 1%nat) \/
   (cacheHit this (now env) = None /\
    (exists webhooks parsed,
       getWebhooks env = inr webhooks /\
       parseAll (JSON_parse env) webhooks = inr parsed /\
       filterThrows parsed e /\
       final (dispatch env event this) =
         {| webhookCache := Some parsed;
            cacheExpiry := now env + 30000 |}) /\
    storeReads (trace (dispatch env event this)) = 1%nat) \/
   (exists cached,
      cacheHit this (now env) = Some cached /\
      filterThrows cached e /\
      final (dispatch env event this) = this /\
      storeReads (trace (dispatch env event this)) = 0%nat)) /\
  (forall cached env' event' this',
     filterThrows cached e ->
     cacheHit this' (now env') = Some cached ->
     dispatch env' event' this' = (Threw e, this', [])).
Proof.
  intros Hthrew.
  assert (Hposts : posts (trace (dispatch env event this)) = []).
  { pose proof (getWebhooksWithCache_posts env this) as Hquiet.
    rewrite dispatch_run in *.
    destruct (getWebhooksWithCache env this) as [[[cached|e0|] this'] t];
      run_simpl; try exact Hquiet.
    destruct (matching event cached); run_simpl;
      [exact Hquiet | discriminate]. }
  split; [exact Hposts|]. split.
  - destruct (cacheHit this (now env)) as [cached|] eqn:Hhit.
    + right. right. exists cached.
      rewrite (dispatch_on_hit env event this cached Hhit) in *.
      destruct (matching event cached) as [e0|kept] eqn:Hm; run_simpl;
        [|discriminate].
      inversion Hthrew; subst.
      split; [reflexivity|]. split; [apply matching_inl in Hm; exact Hm|].
      split; reflexivity.
    + pose proof (dispatch_storeReads_miss env event this Hhit) as Hreads.
      rewrite dispatch_run, getWebhooksWithCache_run, Hhit in *.
      destruct (getWebhooks env) as [e0|webhooks] eqn:Hstore; run_simpl.
      * left. inversion Hthrew; subst. repeat split; auto.
      * destruct (parseAll (JSON_parse env) webhooks) as [e0|parsed] eqn:Hp;
          run_simpl.
        -- left. inversion Hthrew; subst. repeat split; auto.
           right. exists webhooks. auto.
        -- right. left.
           destruct (matching event parsed) as [e0|kept] eqn:Hm; run_simpl;
             [|discriminate].
           inversion Hthrew; subst. split; [reflexivity|].
           split; [|exact Hreads].
           exists webhooks, parsed. repeat split; auto.
           apply matching_inl in Hm. exact Hm.
  - intros cached env' event' this' Hthrows Hhit.
    rewrite (dispatch_on_hit env' event' this' cached Hhit).
    apply (matching_inl event') in Hthrows. rewrite Hthrows. reflexivity.
Qed.

Lemma rejected_dispatch_sends_nothing_witness :
  posts (trace (dispatch (envWith T (inr [hookAll; hookNull]) delivered)
                         msgNew initial)) = [] /\
  dispatch (envWith (T + 5) (inr [hookAll]) delivered) msg
           (final (dispatch (envWith T (inr [hookAll; hookNull]) delivered)
                            msgNew initial))
  = (Threw nullHasNoProperties,
     final (dispatch (envWith T (inr [hookAll; hookNull]) delivered)
                     msgNew initial), []).
Proof.
  destruct (rejected_dispatch_sends_nothing
              (envWith T (inr [hookAll; hookNull]) delivered) msgNew initial
              nullHasNoProperties eq_refl) as (Hposts & _ & Hsticky).
  split; [exact Hposts|].
  apply (Hsticky
           [ {| webhook := hookAll; eventTypes := JArray [JString "*"] |};
             {| webhook := hookNull; eventTypes := JNull |} ]).
  - exists [ {| webhook := hookAll; eventTypes := JArray [JString "*"] |} ],
           {| webhook := hookNull; eventTypes := JNull |}, [].
    repeat split. repeat constructor.
  - reflexivity.
Defined.

(** X9. While a cache entry is valid, [dispatch] does not depend on the
    Subscription Store or on [JSON.parse]: registrations added, removed or
    broken since the fill, and a store that cannot be read, make no
    difference; the store is not read and the cache is left as it is.
    The requests go to the cached registrations that the filter keeps:
    when all cached values are arrays, to those whose array contains
    ["*"] or the type of the event; and to none when the filter throws on
    a cached value that is neither an array nor a string. *)
Theorem valid_cache_hides_store env event this cached store parse :
  cacheHit this (now env) = Some cached ->
  dispatch (withStore env store parse) event this = dispatch env event this /\
  final (dispatch env event this) = this /\
  storeReads (trace (dispatch env event this)) = 0%nat /\
  (Forall hasFilterList cached ->
   posts (trace (dispatch env event this)) =
     map (fun c => (url (webhook c), event))
         (filter (fun c => listed "*" c || listed (type event) c) cached)) /\
  (forall kept, matching event cached = inr kept ->
     posts (trace (dispatch env event this)) =
       map (fun c => (url (webhook c), event)) kept) /\
  (forall e, filterThrows cached e ->
     outcome (dispatch env event this) = Threw e /\
     posts (trace (dispatch env event this)) = []).
Proof.
  intros Hhit.
  assert (Hsame : dispatch (withStore env store parse) event this =
                  dispatch env event this).
  { rewrite (dispatch_on_hit env event this cached Hhit).
    rewrite (dispatch_on_hit (withStore env store parse) event this cached
               Hhit).
    destruct (matching event cached); reflexivity. }
  split; [exact Hsame|].
  destruct (dispatch_hit env event this cached Hhit) as (Hfinal & Hreads & _).
  split; [exact Hfinal|]. split; [exact Hreads|].
  rewrite (dispatch_on_hit env event this cached Hhit).
  split; [|split].
  - intros Hlists. rewrite (matching_lists event cached Hlists).
    unfold trace; cbn [snd]. apply initiation_reads.
  - intros kept Hkept. rewrite Hkept. unfold trace; cbn [snd].
    apply initiation_reads.
  - intros e Hthrows. apply (matching_inl event) in Hthrows.
    rewrite Hthrows. split; reflexivity.
Qed.

Lemma valid_cache_hides_store_witness :
  posts (trace (dispatch (envWith (T + 100) (inr [hookAll]) delivered) msgNew
                  {| webhookCache :=
                       Some [ {| webhook := hookNew;
                                 eventTypes := JArray [JString "msg-new"] |} ];
                     cacheExpiry := T + 30000 |}))
    = [(url hookNew, msgNew)] /\
  dispatch (withStore (envWith (T + 100) (inr [hookAll]) delivered)
                      (inl unreachable) parse)
           msgNew
           {| webhookCache :=
                Some [ {| webhook := hookNew;
                          eventTypes := JArray [JString "msg-new"] |} ];
              cacheExpiry := T + 30000 |}
  = dispatch (envWith (T + 100) (inr [hookAll]) delivered) msgNew
             {| webhookCache :=
                  Some [ {| webhook := hookNew;
                            eventTypes := JArray [JString "msg-new"] |} ];
                cacheExpiry := T + 30000 |}.
Proof.
  destruct (valid_cache_hides_store
              (envWith (T + 100) (inr [hookAll]) delivered) msgNew
              {| webhookCache :=
                   Some [ {| webhook := hookNew;
                             eventTypes := JArray [JString "msg-new"] |} ];
                 cacheExpiry := T + 30000 |}
              [ {| webhook := hookNew;
                   eventTypes := JArray [JString "msg-new"] |} ]
              (inl unreachable) parse eq_refl)
    as (Hsame & _ & _ & Hlists & _).
  split; [|exact Hsame].
  apply Hlists. repeat constructor. eexists. reflexivity.
Defined.

Lemma attempted_stops parse pre w post parsedPre e :
  parseAll parse pre = inr parsedPre ->
  parse (events w) = inl e ->
  attempted parse (pre ++ w :: post) = pre ++ [w] /\
  parseAll parse (pre ++ w :: post) = inl e.
Proof.
  revert parsedPre. induction pre as [|x pre IH]; intros parsedPre Hpre Hw;
    simpl in *.
  - rewrite Hw. split; reflexivity.
  - destruct (parse (events x)) as [e0|l]; [discriminate|].
    destruct (parseAll parse pre) as [e0|parsed'] eqn:Hp; [discriminate|].
    destruct (IH parsed' eq_refl Hw) as [Ha Hb]. rewrite Ha, Hb.
    split; reflexivity.
Qed.

(** X10. One registration whose filter list does not parse makes the
    whole cache fill fail: the registrations after it are not parsed,
    nothing is cached, [dispatch] rejects with the parse error and no
    subscriber, not even those registered before the faulty one, is sent
    the event. *)
Theorem unparsable_registration_blocks_dispatch
        env event this pre w post parsedPre e :
  cacheHit this (now env) = None ->
  getWebhooks env = inr (pre ++ w :: post) ->
  parseAll (JSON_parse env) pre = inr parsedPre ->
  JSON_parse env (events w) = inl e ->
  outcome (dispatch env event this) = Threw e /\
  parses (trace (dispatch env event this)) = map events (pre ++ [w]) /\
  posts (trace (dispatch env event this)) = [] /\
  final (dispatch env event this) = this.
Proof.
  intros Hmiss Hstore Hpre Hw.
  destruct (attempted_stops (JSON_parse env) pre w post parsedPre e Hpre Hw)
    as [Hatt Hall].
  rewrite dispatch_run, getWebhooksWithCache_run, Hmiss, Hstore, Hall, Hatt.
  run_simpl.
  destruct (parsing_reads (pre ++ [w])) as (_ & Hparses & Hposts).
  repeat split; assumption.
Qed.

Lemma unparsable_registration_blocks_dispatch_witness :
  posts (trace (dispatch
                  (envWith T (inr [hookAll; hookBroken; hookNew]) delivered)
                  msgNew initial)) = [].
Proof.
  exact (proj1 (proj2 (proj2
    (unparsable_registration_blocks_dispatch
       (envWith T (inr [hookAll; hookBroken; hookNew]) delivered)
       msgNew initial [hookAll] hookBroken [hookNew]
       [ {| webhook := hookAll; eventTypes := JArray [JString "*"] |} ]
       syntaxError
       eq_refl eq_refl eq_refl eq_refl)))).
Defined.

End CacheLife.

(** * The life cycle of the listener *)

Section Earliest.
Import IMessageListener CycleReadings Lifecycle ListenerScenario
       LifecycleScenario.

Lemma statted_app t1 t2 : statted (t1 ++ t2) = statted t1 ++ statted t2.
Proof.
  induction t1 as [|e t1 IH]; simpl; [reflexivity|].
  destruct e; simpl; rewrite ?IH; reflexivity.
Qed.

Lemma inCycle_app t1 t2 : inCycle (t1 ++ t2) = inCycle t1 ++ inCycle t2.
Proof.
  induction t1 as [|e t1 IH]; simpl; [reflexivity|].
  destruct e; simpl; rewrite ?IH; reflexivity.
Qed.

Lemma inCycle_map t : inCycle (map InCycle t) = t.
Proof. induction t as [|e t IH]; simpl; [|rewrite IH]; reflexivity. Qed.

Lemma earliestOf_cons w path rest earliest l :
  earliestOf w (path :: rest) earliest l =
  match statSync w path with
  | inl e => (Threw e, l, [StatSync path])
  | inr mtime =>
      let r := earliestOf w rest
                 (if mtime <? earliest then mtime else earliest) l in
      (outcome r, final r, StatSync path :: trace r)
  end.
Proof.
  simpl earliestOf. unfold bind at 1. unfold tell at 1.
  destruct (statSync w path) as [e|mtime]; [reflexivity|].
  cbv zeta.
  destruct (earliestOf w rest _ l) as [[o l'] t]. reflexivity.
Qed.

(** The loop over files that can all be examined. *)
Lemma earliestOf_found w mtime paths :
  forall earliest l,
    Forall (fun path => statSync w path = inr (mtime path)) paths ->
    exists m,
      earliestOf w paths earliest l =
        (Returned m, l, map StatSync paths) /\
      m <= earliest /\
      Forall (fun path => m <= mtime path) paths /\
      (m = earliest \/ In m (map mtime paths)).
Proof.
  induction paths as [|path rest IH]; intros earliest l Hall.
  - exists earliest. repeat split; auto; lia.
  - inversion Hall as [|? ? Hpath Hrest]; subst.
    destruct (IH (if mtime path <? earliest then mtime path else earliest)
                 l Hrest) as (m & Hrun & Hle & Hall' & Hin).
    exists m. rewrite earliestOf_cons, Hpath. cbv zeta. rewrite Hrun.
    destruct (mtime path <? earliest) eqn:Hlt;
      [apply Z.ltb_lt in Hlt | apply Z.ltb_ge in Hlt].
    + split; [reflexivity|]. split; [lia|].
      split; [constructor; [lia | assumption]|].
      right. simpl. destruct Hin as [Hm | Hin]; [left; auto | right; exact Hin].
    + split; [reflexivity|]. split; [lia|].
      split; [constructor; [lia | assumption]|].
      simpl. destruct Hin as [Hm | Hin]; [left; exact Hm | right; right; exact Hin].
Qed.

(** X11. When every watched file can be examined,
    [getEarliestModifiedDate] examines each file once, in order, changes
    nothing, and returns the earliest of the current time and the
    modification times: it is never later than now, never later than any
    modification time, and is one of these values (now itself when there
    are no files). *)
Theorem earliest_is_minimum w l mtime :
  Forall (fun path => statSync w path = inr (mtime path)) (filePaths l) ->
  exists m,
    getEarliestModifiedDate w l =
      (Returned m, l, map StatSync (filePaths l)) /\
    m <= clock w /\
    Forall (fun path => m <= mtime path) (filePaths l) /\
    (m = clock w \/ In m (map mtime (filePaths l))) /\
    (filePaths l = [] -> m = clock w).
Proof.
  intros Hall.
  destruct (earliestOf_found w mtime (filePaths l) (clock w) l Hall)
    as (m & Hrun & Hle & Hall' & Hin).
  exists m. unfold getEarliestModifiedDate, bind, get. rewrite Hrun. simpl.
  repeat split; auto.
  intros Hnone. rewrite Hnone in Hin. destruct Hin as [H | []]. exact H.
Qed.

Lemma earliest_is_minimum_witness :
  outcome (getEarliestModifiedDate (worldAt T None) (fresh []))
    = Returned (T - 500000).
Proof.
  assert (Hall : Forall (fun path => statSync (worldAt T None) path
                                     = inr (mtimeOf path))
                        (filePaths (fresh []))).
  { repeat constructor. }
  destruct (earliest_is_minimum (worldAt T None) (fresh []) mtimeOf Hall)
    as (m & Hrun & _).
  rewrite Hrun. vm_compute in Hrun. injection Hrun as Hm. rewrite <- Hm.
  reflexivity.
Defined.

Lemma earliestOf_missing w mtime pre :
  forall path post e earliest l,
    Forall (fun p => statSync w p = inr (mtime p)) pre ->
    statSync w path = inl e ->
    earliestOf w (pre ++ path :: post) earliest l =
      (Threw e, l, map StatSync (pre ++ [path])).
Proof.
  induction pre as [|p pre IH]; intros path post e earliest l Hpre Hpath;
    simpl app; rewrite earliestOf_cons.
  - rewrite Hpath. reflexivity.
  - inversion Hpre as [|? ? Hp Hrest]; subst. rewrite Hp. cbv zeta.
    rewrite (IH path post e _ l Hrest Hpath). reflexivity.
Qed.

(** X12. When a watched file cannot be examined,
    [getEarliestModifiedDate] throws the error of [fs.statSync] at that
    file; the files after it are not examined. *)
Theorem earliest_throws_at_missing_file w l mtime pre path post e :
  filePaths l = pre ++ path :: post ->
  Forall (fun p => statSync w p = inr (mtime p)) pre ->
  statSync w path = inl e ->
  getEarliestModifiedDate w l =
    (Threw e, l, map StatSync (pre ++ [path])).
Proof.
  intros Hpaths Hpre Hpath.
  unfold getEarliestModifiedDate, bind, get. rewrite Hpaths.
  rewrite (earliestOf_missing w mtime pre path post e (clock w) l Hpre Hpath).
  reflexivity.
Qed.

Lemma earliest_throws_at_missing_file_witness :
  getEarliestModifiedDate (worldAt T None) withMissingFile
  = (Threw missing, withMissingFile,
     [StatSync "chat.db"; StatSync "chat.db-shm"]).
Proof.
  refine (earliest_throws_at_missing_file (worldAt T None) withMissingFile
            mtimeOf ["chat.db"] "chat.db-shm" ["chat.db-wal"] missing
            eq_refl _ eq_refl).
  repeat constructor.
Defined.

End Earliest.

Section Starting.
Import IMessageListener CycleReadings Lifecycle ListenerScenario
       LifecycleScenario.

(** The seed poll: with emission off, the trace holds the calls of the
    pollers and nothing else. *)
Lemma pollFrom_seed env after ps :
  forall from s,
    Forall (responds after) ps ->
    pollFrom env after false from ps s =
      (Returned tt, s,
       map (fun i => Poll i after) (seq from (List.length ps))).
Proof.
  induction ps as [|p ps IH]; intros from s Hall; [reflexivity|].
  inversion Hall as [|? ? (results & Hp) Hrest]; subst.
  rewrite pollFrom_step, Hp. cbv zeta. run_simpl.
  rewrite (IH (S from) s Hrest). reflexivity.
Qed.

Lemma pollFrom_seed_abort env after pre :
  forall from p post e s,
    Forall (responds after) pre ->
    p after = inl e ->
    pollFrom env after false from (pre ++ p :: post) s =
      (Threw e, s,
       map (fun i => Poll i after) (seq from (S (List.length pre)))).
Proof.
  induction pre as [|q pre IH]; intros from p post e s Hpre Hp; simpl app;
    rewrite pollFrom_step.
  - rewrite Hp. reflexivity.
  - inversion Hpre as [|? ? (results & Hq) Hrest]; subst.
    rewrite Hq. cbv zeta. run_simpl.
    rewrite (IH (S from) p post e s Hrest Hp). reflexivity.
Qed.

(** [start] up to the end of the seed poll, and after it. *)
Lemma start_run w l earliest t0 :
  getEarliestModifiedDate w l = (Returned earliest, l, t0) ->
  let seeded := {| stopped := false;
                   processLock := processLock (cycleState l);
                   lastCheck := earliest - 60000 |} in
  let p := poll (cycleEnv w l) (earliest - 60000) false seeded in
  start w l =
  match outcome p with
  | Returned _ =>
      (Returned tt,
       {| cycleState := seeded; filePaths := filePaths l;
          pollers := pollers l; watcher := Some (filePaths l);
          fallbackPoller := Some (safeIntervalOf (db_poll_interval w));
          handlers := handlers l |},
       t0 ++ map InCycle (trace p) ++
         [ NewWatcher (filePaths l); WatcherOn "change"; WatcherOn "error";
           WatcherStart; GetConfig "db_poll_interval";
           Debug (String.append "Starting fallback poller with interval: "
                    (String.append
                       (showNumber (safeIntervalOf (db_poll_interval w)))
                       "ms"));
           NewScheduledService (safeIntervalOf (db_poll_interval w)) true ])
  | Threw e =>
      (Threw e, withCycleState l seeded, t0 ++ map InCycle (trace p))
  | Blocked =>
      (Blocked, withCycleState l seeded, t0 ++ map InCycle (trace p))
  end.
Proof.
  intros Hearliest seeded p.
  pose proof (pollFrom_spec (cycleEnv w l) (earliest - 60000) false
                (IMessageListener.pollers (cycleEnv w l)) 0%nat seeded)
    as (Hfinal & _).
  rewrite <- poll_pollFrom in Hfinal. fold p in Hfinal.
  cbv beta iota delta [start bind].
  rewrite Hearliest.
  cbv beta iota delta [bind get put tell onCycle withCycleState ret].
  cbn [cycleState filePaths pollers watcher fallbackPoller handlers
       lastCheck app].
  fold seeded.
  match goal with
  | |- context [poll ?env (earliest - 60000) false seeded] =>
      change env with (cycleEnv w l)
  end.
  fold p.
  destruct p as [[[[]|e|] s1] t1]; run_simpl; subst s1;
    rewrite ?app_nil_r; reflexivity.
Qed.


(** X13. When the files can be examined and every poller answers, [start]
    sets [lastCheck] to the earliest of now and the modification times of
    the files, minus 60000, clears [stopped], calls every poller once with
    that time without emitting anything and without taking the lock, and
    only then creates and starts the watcher and schedules the fallback
    service, with as interval the setting (5000 when it is missing) raised
    to 3000 when it is lower and lowered to 30000 when it is higher. *)
Theorem start_seeds_then_watches w l mtime :
  Forall (fun path => statSync w path = inr (mtime path)) (filePaths l) ->
  (forall after, after <= clock w - 60000 ->
                 Forall (responds after) (pollers l)) ->
  let setting := match db_poll_interval w with
                 | Some v => v
                 | None => 5000
                 end in
  let interval := if setting <? 3000 then 3000
                  else if 30000 <? setting then 30000
                  else setting in
  exists earliest,
    (earliest <= clock w /\
     Forall (fun path => earliest <= mtime path) (filePaths l) /\
     (earliest = clock w \/ In earliest (map mtime (filePaths l)))) /\
    start w l =
      (Returned tt,
       {| cycleState := {| stopped := false;
                           processLock := processLock (cycleState l);
                           lastCheck := earliest - 60000 |};
          filePaths := filePaths l; pollers := pollers l;
          watcher := Some (filePaths l);
          fallbackPoller := Some interval;
          handlers := handlers l |},
       map StatSync (filePaths l) ++
       map (fun i => InCycle (Poll i (earliest - 60000)))
           (seq 0 (List.length (pollers l))) ++
       [ NewWatcher (filePaths l); WatcherOn "change"; WatcherOn "error";
         WatcherStart; GetConfig "db_poll_interval";
         Debug (String.append "Starting fallback poller with interval: "
                  (String.append (showNumber interval) "ms"));
         NewScheduledService interval true ]).
Proof.
  intros Hfiles Hpollers setting interval.
  destruct (earliestOf_found w mtime (filePaths l) (clock w) l Hfiles)
    as (m & Hrun & Hle & Hall & Hin).
  assert (Hearliest : getEarliestModifiedDate w l =
                      (Returned m, l, map StatSync (filePaths l))).
  { unfold getEarliestModifiedDate, bind, get. rewrite Hrun.
    simpl. reflexivity. }
  assert (Hinterval : safeIntervalOf (db_poll_interval w) = interval).
  { unfold safeIntervalOf. fold setting. subst interval.
    destruct (setting <? 3000) eqn:Hlow;
      [apply Z.ltb_lt in Hlow; lia | apply Z.ltb_ge in Hlow].
    destruct (30000 <? setting) eqn:Hhigh;
      [apply Z.ltb_lt in Hhigh | apply Z.ltb_ge in Hhigh]; lia. }
  exists m.
  split; [split; [exact Hle | split; [exact Hall | exact Hin]]|].
  rewrite (start_run w l m _ Hearliest). cbv zeta.
  rewrite poll_pollFrom.
  rewrite (pollFrom_seed (cycleEnv w l) (m - 60000) (pollers l) 0%nat _
             (Hpollers (m - 60000) ltac:(lia))).
  run_simpl. rewrite map_map, Hinterval. reflexivity.
Qed.

Lemma start_seeds_then_watches_witness :
  exists earliest,
    start (worldAt T (Some 1000)) (fresh [messagePoller; idlePoller]) =
      (Returned tt,
       {| cycleState := {| stopped := false; processLock := 1;
                           lastCheck := earliest - 60000 |};
          filePaths := ["chat.db"; "chat.db-wal"];
          pollers := [messagePoller; idlePoller];
          watcher := Some ["chat.db"; "chat.db-wal"];
          fallbackPoller := Some 3000;
          handlers := [] |},
       map StatSync ["chat.db"; "chat.db-wal"] ++
       map (fun i => InCycle (Poll i (earliest - 60000))) (seq 0 2) ++
       [ NewWatcher ["chat.db"; "chat.db-wal"]; WatcherOn "change";
         WatcherOn "error"; WatcherStart; GetConfig "db_poll_interval";
         Debug (String.append "Starting fallback poller with interval: "
                  (String.append (showNumber 3000) "ms"));
         NewScheduledService 3000 true ]).
Proof.
  assert (Hfiles : Forall (fun path => statSync (worldAt T (Some 1000)) path
                                       = inr (mtimeOf path))
                          (filePaths (fresh [messagePoller; idlePoller]))).
  { repeat constructor. }
  assert (Hpollers : forall after,
             after <= clock (worldAt T (Some 1000)) - 60000 ->
             Forall (responds after)
                    (pollers (fresh [messagePoller; idlePoller]))).
  { intros after _. repeat constructor;
      [exists [newMessage] | exists []]; reflexivity. }
  destruct (start_seeds_then_watches (worldAt T (Some 1000))
              (fresh [messagePoller; idlePoller]) mtimeOf Hfiles Hpollers)
    as (earliest & _ & Hstart).
  exists earliest. exact Hstart.
Defined.

(** X14. When a poller throws during the seed poll, [start] rejects with
    that error after calling no poller registered after it; no watcher is
    created and no fallback service is scheduled, while [lastCheck] and
    [stopped] keep the values [start] has just given them. *)
Theorem start_fails_with_poller w l mtime pre p post e :
  Forall (fun path => statSync w path = inr (mtime path)) (filePaths l) ->
  pollers l = pre ++ p :: post ->
  (forall after, after <= clock w - 60000 ->
                 Forall (responds after) pre /\ p after = inl e) ->
  exists earliest,
    earliest <= clock w /\
    start w l =
      (Threw e,
       {| cycleState := {| stopped := false;
                           processLock := processLock (cycleState l);
                           lastCheck := earliest - 60000 |};
          filePaths := filePaths l; pollers := pollers l;
          watcher := watcher l; fallbackPoller := fallbackPoller l;
          handlers := handlers l |},
       map StatSync (filePaths l) ++
       map (fun i => InCycle (Poll i (earliest - 60000)))
           (seq 0 (S (List.length pre)))) /\
    existsb isSetup (trace (start w l)) = false.
Proof.
  intros Hfiles Hpollers Hbehave.
  destruct (earliestOf_found w mtime (filePaths l) (clock w) l Hfiles)
    as (m & Hrun & Hle & Hall & _).
  assert (Hearliest : getEarliestModifiedDate w l =
                      (Returned m, l, map StatSync (filePaths l))).
  { unfold getEarliestModifiedDate, bind, get. rewrite Hrun.
    simpl. reflexivity. }
  destruct (Hbehave (m - 60000) ltac:(lia)) as [Hpre Hp].
  assert (Hstart : start w l =
      (Threw e,
       {| cycleState := {| stopped := false;
                           processLock := processLock (cycleState l);
                           lastCheck := m - 60000 |};
          filePaths := filePaths l; pollers := pollers l;
          watcher := watcher l; fallbackPoller := fallbackPoller l;
          handlers := handlers l |},
       map StatSync (filePaths l) ++
       map (fun i => InCycle (Poll i (m - 60000)))
           (seq 0 (S (List.length pre))))).
  { rewrite (start_run w l m _ Hearliest). cbv zeta.
    rewrite poll_pollFrom.
    change (IMessageListener.pollers (cycleEnv w l)) with (pollers l).
    rewrite Hpollers.
    rewrite (pollFrom_seed_abort (cycleEnv w l) (m - 60000) pre 0%nat p post
               e _ Hpre Hp).
    run_simpl. unfold withCycleState. rewrite map_map, Hpollers.
    reflexivity. }
  exists m. split; [exact Hle|]. split; [exact Hstart|].
  rewrite Hstart. unfold trace; cbn [snd].
  rewrite existsb_app. apply orb_false_iff. split.
  - clear. induction (filePaths l); simpl; auto.
  - clear. generalize 0%nat. induction (S (List.length pre)); intros k;
      simpl; auto.
Qed.

Lemma start_fails_with_poller_witness :
  outcome (start (worldAt T None) (fresh [messagePoller; brokenPoller]))
    = Threw locked /\
  watcher (final (start (worldAt T None)
                        (fresh [messagePoller; brokenPoller]))) = None.
Proof.
  assert (Hfiles : Forall (fun path => statSync (worldAt T None) path
                                       = inr (mtimeOf path))
                          (filePaths (fresh [messagePoller; brokenPoller]))).
  { repeat constructor. }
  assert (Hbehave : forall after,
             after <= clock (worldAt T None) - 60000 ->
             Forall (responds after) [messagePoller] /\
             brokenPoller after = inl locked).
  { intros after _. split; [|reflexivity].
    repeat constructor. exists [newMessage]. reflexivity. }
  destruct (start_fails_with_poller (worldAt T None)
              (fresh [messagePoller; brokenPoller]) mtimeOf [messagePoller]
              brokenPoller [] locked Hfiles eq_refl Hbehave)
    as (earliest & _ & Hstart & _).
  rewrite Hstart. split; reflexivity.
Defined.

(** X15. When a watched file cannot be examined, [start] throws the error
    of [fs.statSync] before it touches the listener: nothing is polled,
    watched or scheduled, and all fields are as they were. *)
Theorem start_fails_with_missing_file w l mtime pre path post e :
  filePaths l = pre ++ path :: post ->
  Forall (fun p => statSync w p = inr (mtime p)) pre ->
  statSync w path = inl e ->
  start w l = (Threw e, l, map StatSync (pre ++ [path])).
Proof.
  intros Hpaths Hpre Hpath.
  cbv beta iota delta [start bind].
  unfold getEarliestModifiedDate, bind, get. rewrite Hpaths.
  rewrite (earliestOf_missing w mtime pre path post e (clock w) l Hpre Hpath).
  reflexivity.
Qed.

Lemma start_fails_with_missing_file_witness :
  start (worldAt T None) withMissingFile
  = (Threw missing, withMissingFile,
     [StatSync "chat.db"; StatSync "chat.db-shm"]).
Proof.
  refine (start_fails_with_missing_file (worldAt T None) withMissingFile
            mtimeOf ["chat.db"] "chat.db-shm" ["chat.db-wal"] missing
            eq_refl _ eq_refl).
  repeat constructor.
Defined.

End Starting.

Section Running.
Import IMessageListener CycleReadings Lifecycle ListenerScenario
       LifecycleScenario.

Lemma onCycle_run {A} (m : Env -> M A) w l :
  onCycle m w l =
  (outcome (m (cycleEnv w l) (cycleState l)),
   withCycleState l (final (m (cycleEnv w l) (cycleState l))),
   map InCycle (trace (m (cycleEnv w l) (cycleState l)))).
Proof.
  unfold onCycle. destruct (m (cycleEnv w l) (cycleState l)) as [[o s] t].
  reflexivity.
Qed.

Lemma fallbackTick_due w interval l :
  stopped (cycleState l) = false ->
  4 * interval < 5 * (clock w - lastCheck (cycleState l)) ->
  fallbackTick w interval l =
  (outcome (handleFallbackPoll (cycleEnv w l) (cycleState l)),
   withCycleState l (final (handleFallbackPoll (cycleEnv w l) (cycleState l))),
   Debug (String.append "Fallback poll triggered ("
            (String.append
               (showNumber (clock w - lastCheck (cycleState l)))
               "ms since last check)"))
   :: map InCycle (trace (handleFallbackPoll (cycleEnv w l) (cycleState l)))).
Proof.
  intros Hrun Hdue. unfold fallbackTick. unfold bind at 1. unfold get at 1.
  rewrite Hrun. cbv zeta.
  assert (Hgt : (5 * (clock w - lastCheck (cycleState l)) >? 4 * interval)
                = true) by (apply Z.gtb_lt; lia).
  rewrite Hgt. unfold bind at 1. unfold tell at 1.
  rewrite onCycle_run. reflexivity.
Qed.

(** X16. A tick of the fallback service does nothing at all when the
    listener is stopped or when [lastCheck] is at most 0.8 of the interval
    old; otherwise it logs and runs one fallback poll cycle, which (the
    lock being free) calls the pollers with the fallback lower bound
    computed from the cycle's own reading of the clock. *)
Theorem fallback_tick_polls_when_due w interval l n :
  processLock (cycleState l) = S n ->
  (stopped (cycleState l) = true \/
   5 * (clock w - lastCheck (cycleState l)) <= 4 * interval ->
   fallbackTick w interval l = (Returned tt, l, [])) /\
  (stopped (cycleState l) = false ->
   4 * interval < 5 * (clock w - lastCheck (cycleState l)) ->
   outcome (fallbackTick w interval l) = Returned tt /\
   inCycle (trace (fallbackTick w interval l)) =
     trace (handleFallbackPoll (cycleEnv w l) (cycleState l)) /\
   passesToPollers (cycleEnv w l)
     (inCycle (trace (fallbackTick w interval l)))
     (specFallbackLowerBound (lastCheck (cycleState l)) (cycleNow w))).
Proof.
  intros Hlock. split.
  - intros Hskip. unfold fallbackTick. unfold bind at 1. unfold get at 1.
    destruct (stopped (cycleState l)) eqn:Hstopped; [reflexivity|].
    destruct Hskip as [Hs | Hrecent]; [discriminate|]. cbv zeta.
    assert (Hle : (5 * (clock w - lastCheck (cycleState l)) >? 4 * interval)
                  = false).
    { destruct (5 * (clock w - lastCheck (cycleState l)) >? 4 * interval)
        eqn:H; [|reflexivity]. apply Z.gtb_lt in H. lia. }
    rewrite Hle. reflexivity.
  - intros Hrun Hdue. rewrite (fallbackTick_due w interval l Hrun Hdue).
    unfold outcome, trace; cbn [fst snd inCycle]. rewrite inCycle_map.
    destruct (cycle_run Fallback (cycleEnv w l) (cycleState l) n Hlock)
      as (Hout & _).
    split; [exact Hout|]. split; [reflexivity|].
    apply (cycle_passes Fallback (cycleEnv w l) (cycleState l) n Hlock).
Qed.

Lemma fallback_tick_polls_when_due_witness :
  fallbackTick (worldAt (T + 2400) None) 3000
    {| cycleState := listenerAt T; filePaths := []; pollers := [brokenPoller];
       watcher := None; fallbackPoller := Some 3000; handlers := [] |}
  = (Returned tt,
     {| cycleState := listenerAt T; filePaths := []; pollers := [brokenPoller];
        watcher := None; fallbackPoller := Some 3000; handlers := [] |},
     []).
Proof.
  refine (proj1 (fallback_tick_polls_when_due (worldAt (T + 2400) None) 3000
                   {| cycleState := listenerAt T; filePaths := [];
                      pollers := [brokenPoller]; watcher := None;
                      fallbackPoller := Some 3000; handlers := [] |}
                   0 eq_refl) _).
  right. vm_compute. discriminate.
Defined.



Lemma cycle_answered trigger env this n :
  processLock this = S n ->
  let after := lowerBound trigger (lastCheck this) (now env) in
  Forall (answers env after) (IMessageListener.pollers env) ->
  polled (trace (cycle trigger env this)) =
    map (fun i => (i, after))
        (seq 0 (List.length (IMessageListener.pollers env))) /\
  emitted (trace (cycle trigger env this)) =
    resultsOf after (IMessageListener.pollers env).
Proof.
  intros Hlock after Hall.
  rewrite (cycle_shape trigger env this n Hlock). fold after.
  rewrite poll_pollFrom.
  destruct (pollFrom_answered env after (IMessageListener.pollers env) 0%nat
              (withLock this n) Hall) as (Ho & Hp & He & _).
  rewrite Ho. unfold afterPoll, afterCycle. run_simpl.
  destruct (cycleLog_quiet trigger this env) as (Hlp & Hle & _).
  rewrite !polled_app, !emitted_app, Hlp, Hle, Hp, He.
  destruct (trimCaches env); destruct trigger; simpl;
    try destruct (0 <? nrWaiting env)%nat; simpl; rewrite ?app_nil_r;
    split; reflexivity.
Qed.

Lemma stop_run l :
  stop l =
  (Returned tt,
   {| cycleState := setStopped (cycleState l) true;
      filePaths := filePaths l; pollers := pollers l; watcher := watcher l;
      fallbackPoller := None; handlers := [] |},
   RemoveAllListeners ::
     match fallbackPoller l with
     | Some _ => [ServiceStop]
     | None => []
     end).
Proof.
  unfold stop, bind, get, put, tell, ret, withCycleState, setStopped. simpl.
  destruct (fallbackPoller l) as [interval|] eqn:Hf; simpl; reflexivity.
Qed.

(** X18. [stop] sets [stopped], removes the listeners of the emitter, and
    stops and forgets the fallback service if there is one; it leaves the
    watcher, the pollers, the lock and [lastCheck] untouched. A second
    [stop] only removes listeners again, and every later tick of the
    fallback service does nothing. *)
Theorem stop_halts_fallback l :
  let halted := final (stop l) in
  outcome (stop l) = Returned tt /\
  trace (stop l) =
    RemoveAllListeners ::
      match fallbackPoller l with
      | Some _ => [ServiceStop]
      | None => []
      end /\
  halted =
    {| cycleState := {| stopped := true;
                        processLock := processLock (cycleState l);
                        lastCheck := lastCheck (cycleState l) |};
       filePaths := filePaths l; pollers := pollers l; watcher := watcher l;
       fallbackPoller := None; handlers := [] |} /\
  stop halted = (Returned tt, halted, [RemoveAllListeners]) /\
  (forall w interval,
     fallbackTick w interval halted = (Returned tt, halted, [])).
Proof.
  intros halted. subst halted. rewrite !stop_run. unfold final, outcome, trace.
  cbn [fst snd]. repeat split.
Qed.

(** With no listener registered, [emit] throws only for [error] events. *)
Lemma emitOn_none w result :
  eventType result <> "error" -> emitOn w [] result = None.
Proof.
  intros Hname. unfold emitOn. simpl.
  destruct (String.eqb (eventType result) "error") eqn:H; [|reflexivity].
  apply String.eqb_eq in H. contradiction.
Qed.

Lemma answers_without_listeners env after ps :
  (forall result, eventType result <> "error" -> emit env result = None) ->
  Forall (responds after) ps ->
  Forall (fun result => eventType result <> "error") (resultsOf after ps) ->
  Forall (answers env after) ps.
Proof.
  intros Hemit Hall. induction Hall as [|p ps (results & Hp) _ IH];
    intros Hnames; [constructor|].
  unfold resultsOf in Hnames. simpl in Hnames. rewrite Hp in Hnames.
  apply Forall_app in Hnames. destruct Hnames as [Hhere Hrest].
  constructor; [|exact (IH Hrest)].
  exists results. split; [exact Hp|].
  apply Forall_forall. intros r Hr. apply Hemit.
  rewrite Forall_forall in Hhere. exact (Hhere r Hr).
Qed.

(** X19. [stop] does not reach the watcher's [change] handler, which does
    not consult [stopped]: a change notification after [stop] still takes
    the lock and calls the pollers with the debounced lower bound. As
    [stop] has removed the listeners of the emitter, no listener can end
    that cycle: when the pollers answer (with no [error] events), all of
    them are called, their results are emitted to nobody, and [lastCheck]
    becomes [now], whatever the listeners registered before would have
    done. *)
Theorem change_after_stop_still_polls w event l n :
  processLock (cycleState l) = S n ->
  let halted := final (stop l) in
  let after :=
    specDebouncedLowerBound (lastCheck (cycleState l)) (cycleNow w) in
  stopped (cycleState halted) = true /\
  handlers halted = [] /\
  outcome (onChange w event halted) = Returned tt /\
  passesToPollers (cycleEnv w halted)
    (inCycle (trace (onChange w event halted))) after /\
  (Forall (responds after) (pollers l) ->
   Forall (fun result => eventType result <> "error")
          (resultsOf after (pollers l)) ->
   polled (inCycle (trace (onChange w event halted))) =
     map (fun i => (i, after)) (seq 0 (List.length (pollers l))) /\
   emitted (inCycle (trace (onChange w event halted))) =
     resultsOf after (pollers l) /\
   lastCheck (cycleState (final (onChange w event halted))) = cycleNow w).
Proof.
  intros Hlock halted after.
  assert (Hhalted : halted =
            {| cycleState := setStopped (cycleState l) true;
               filePaths := filePaths l; pollers := pollers l;
               watcher := watcher l; fallbackPoller := None;
               handlers := [] |})
    by (subst halted; rewrite stop_run; reflexivity).
  clearbody halted.
  assert (Hlock' : processLock (cycleState halted) = S n)
    by (rewrite Hhalted; exact Hlock).
  assert (Hpollers : pollers halted = pollers l)
    by (rewrite Hhalted; reflexivity).
  assert (Hlast : lastCheck (cycleState halted) = lastCheck (cycleState l))
    by (rewrite Hhalted; reflexivity).
  assert (Hemit : forall result,
            eventType result <> "error" ->
            emit (cycleEnv w halted) result = None).
  { intros result Hname. rewrite Hhalted. apply emitOn_none. exact Hname. }
  split; [rewrite Hhalted; reflexivity|].
  split; [rewrite Hhalted; reflexivity|].
  clear Hhalted.
  destruct (cycle_run (Debounced event) (cycleEnv w halted)
              (cycleState halted) n Hlock') as (Hout & _).
  pose proof (cycle_passes (Debounced event) (cycleEnv w halted)
                (cycleState halted) n Hlock') as Hpass.
  simpl cycle in Hout, Hpass. simpl lowerBound in Hpass.
  change (now (cycleEnv w halted)) with (cycleNow w) in Hpass.
  rewrite Hlast in Hpass. fold after in Hpass.
  assert (Hanswered :
    Forall (responds after) (pollers l) ->
    Forall (fun result => eventType result <> "error")
           (resultsOf after (pollers l)) ->
    polled (trace (handleChangeEvent (cycleEnv w halted) event
                                     (cycleState halted))) =
      map (fun i => (i, after)) (seq 0 (List.length (pollers l))) /\
    emitted (trace (handleChangeEvent (cycleEnv w halted) event
                                      (cycleState halted))) =
      resultsOf after (pollers l) /\
    lastCheck (final (handleChangeEvent (cycleEnv w halted) event
                                        (cycleState halted))) = cycleNow w).
  { intros Hresponds Hnames.
    assert (Hall : Forall (answers (cycleEnv w halted)
                             (lowerBound (Debounced event)
                                (lastCheck (cycleState halted))
                                (now (cycleEnv w halted))))
                          (IMessageListener.pollers (cycleEnv w halted))).
    { simpl lowerBound. change (now (cycleEnv w halted)) with (cycleNow w).
      change (IMessageListener.pollers (cycleEnv w halted))
        with (pollers halted).
      rewrite Hlast, Hpollers. fold after.
      apply answers_without_listeners; auto. }
    destruct (cycle_answered (Debounced event) (cycleEnv w halted)
                (cycleState halted) n Hlock' Hall) as (Hpolled & Hemitted).
    pose proof (cycle_polled (cycleEnv w halted) (Debounced event)
                  (cycleState halted) n Hlock' Hall) as Hfinal.
    simpl cycle in Hpolled, Hemitted, Hfinal.
    simpl lowerBound in Hpolled, Hemitted.
    change (now (cycleEnv w halted)) with (cycleNow w) in *.
    change (IMessageListener.pollers (cycleEnv w halted))
      with (pollers halted) in *.
    rewrite Hlast, Hpollers in *. fold after in Hpolled, Hemitted.
    split; [exact Hpolled|]. split; [exact Hemitted|].
    rewrite Hfinal. reflexivity. }
  unfold onChange. rewrite onCycle_run.
  remember (handleChangeEvent (cycleEnv w halted) event (cycleState halted))
    as run eqn:Hrun.
  clear Hrun. destruct run as [[o s'] t]. run_simpl.
  rewrite inCycle_map.
  split; [exact Hout|]. split; [exact Hpass|]. exact Hanswered.
Qed.

Lemma change_after_stop_still_polls_witness :
  emitted (inCycle (trace (onChange (hostileWorldAt T) []
                                    (final (stop subscribed)))))
    = [newMessage] /\
  lastCheck (cycleState (final (onChange (hostileWorldAt T) []
                                         (final (stop subscribed)))))
    = T + 1 /\
  lastCheck (cycleState (final (onChange (hostileWorldAt T) [] subscribed)))
    = T - 4000.
Proof.
  assert (Hresponds :
    Forall (responds (specDebouncedLowerBound (T - 4000) (T + 1)))
           (pollers subscribed)).
  { repeat constructor; [exists [newMessage] | exists []]; reflexivity. }
  assert (Hnames :
    Forall (fun result => eventType result <> "error")
           (resultsOf (specDebouncedLowerBound (T - 4000) (T + 1))
                      (pollers subscribed))).
  { repeat constructor. discriminate. }
  destruct (change_after_stop_still_polls (hostileWorldAt T) [] subscribed 0
              eq_refl) as (_ & _ & _ & _ & Hrun).
  destruct (Hrun Hresponds Hnames) as (_ & Hemitted & Hlast).
  split; [exact Hemitted|]. split; [exact Hlast|].
  vm_compute. reflexivity.
Defined.

Lemma addPoller_all ps :
  forall l,
    forOf ps addPoller l =
    (Returned tt,
     {| cycleState := cycleState l; filePaths := filePaths l;
        pollers := pollers l ++ ps; watcher := watcher l;
        fallbackPoller := fallbackPoller l; handlers := handlers l |},
     []).
Proof.
  induction ps as [|p ps IH]; intros l.
  - simpl. rewrite app_nil_r. destruct l; reflexivity.
  - simpl forOf. unfold bind at 1. unfold addPoller at 1.
    unfold bind, get, put. rewrite IH. simpl.
    rewrite <- app_assoc. reflexivity.
Qed.

(** X20. Pollers are called in the order of their registration: after
    [addPoller] for each of [ps] on a newly constructed listener, a fallback
    cycle in which all of them answer calls them at positions 0, 1, ... in
    that order and emits their results in that order. *)
Theorem pollers_run_in_registration_order paths ps w :
  let registered := final (forOf ps addPoller (construct paths)) in
  let after := specFallbackLowerBound 0 (cycleNow w) in
  pollers registered = ps /\
  (Forall (answers (cycleEnv w registered) after) ps ->
   polled (inCycle (trace (onCycle handleFallbackPoll w registered))) =
     map (fun i => (i, after)) (seq 0 (List.length ps)) /\
   emitted (inCycle (trace (onCycle handleFallbackPoll w registered))) =
     resultsOf after ps).
Proof.
  intros registered after. subst registered.
  rewrite addPoller_all. unfold final at 1 2 3 4; cbn [fst snd].
  cbn [construct pollers app]. split; [reflexivity|].
  intros Hall. rewrite onCycle_run. unfold trace at 1 3; cbn [snd].
  rewrite inCycle_map.
  apply (cycle_answered Fallback _ initial 0 eq_refl Hall).
Qed.

Lemma pollers_run_in_registration_order_witness :
  emitted (inCycle (trace (onCycle handleFallbackPoll (worldAt T None)
             (final (forOf [CycleScenario.twoMessagePoller; messagePoller]
                           addPoller (construct ["chat.db"]))))))
    = [newMessage; CycleScenario.secondMessage; newMessage].
Proof.
  refine (proj2 (proj2 (pollers_run_in_registration_order ["chat.db"]
                   [CycleScenario.twoMessagePoller; messagePoller]
                   (worldAt T None)) _)).
  repeat constructor;
    [exists [newMessage; CycleScenario.secondMessage] | exists [newMessage]];
    split; try reflexivity; repeat constructor.
Defined.

End Running.
